(** * Discovery-and-deduplication core of the job-search orchestrator

    Shallow embedding of
    - [src/tools/linkedin_scraper.py]: [_normalize], the filter maps,
      [_canonicalize_job_url] (with the part of CPython's
      [urllib.parse.urlsplit] it relies on) and [LinkedInScraper.search_jobs];
    - [src/utils/storage.py]: [JobDatabase] over its SQLite connection;
    - [src/agents/nodes.py]: [job_discovery_node].

    Python strings are modelled as [list ascii]: the model covers [str]
    values whose code points are below 128 (for those, [str.lower],
    [str.strip] and the non-ASCII netloc check of [urlsplit] reduce to the
    ASCII cases written below).  Library functions the code calls but that are
    not part of this repository (MD5, [date.fromisoformat], the IP-address
    check of bracketed hosts) are section variables: every result holds for
    every implementation of them. *)

From Stdlib Require Import List String Ascii Bool Arith ZArith Lia.
Import ListNotations.
Open Scope list_scope.

(** ** Python string helpers *)
Module PyStr.

Definition str := list ascii.

Definition s (x : string) : str := list_ascii_of_string x.

Definition ascii_eqb (a b : ascii) : bool := Ascii.eqb a b.

Fixpoint mem (c : ascii) (l : str) : bool :=
  match l with
  | [] => false
  | d :: l' => ascii_eqb c d || mem c l'
  end.

Fixpoint str_eqb (a b : str) : bool :=
  match a, b with
  | [], [] => true
  | x :: a', y :: b' => ascii_eqb x y && str_eqb a' b'
  | _, _ => false
  end.

(** [x in xs] for a list of strings. *)
Fixpoint str_in (x : str) (xs : list str) : bool :=
  match xs with
  | [] => false
  | y :: ys => str_eqb x y || str_in x ys
  end.

(** [str.isspace] on ASCII: space, \t, \n, \x0b, \x0c, \r (and the
    separators \x1c-\x1f, which Python also treats as whitespace). *)
Definition is_space (c : ascii) : bool :=
  let n := nat_of_ascii c in
  (n =? 32) || ((9 <=? n) && (n <=? 13)) || ((28 <=? n) && (n <=? 31)).

Fixpoint lstrip_by (p : ascii -> bool) (l : str) : str :=
  match l with
  | [] => []
  | c :: l' => if p c then lstrip_by p l' else l
  end.

(** [str.strip()] *)
Definition strip (l : str) : str :=
  rev (lstrip_by is_space (rev (lstrip_by is_space l))).

Definition lower_char (c : ascii) : ascii :=
  let n := nat_of_ascii c in
  if (65 <=? n) && (n <=? 90) then ascii_of_nat (n + 32) else c.

(** [str.lower()] *)
Definition lower (l : str) : str := map lower_char l.

Definition is_alpha (c : ascii) : bool :=
  let n := nat_of_ascii c in
  ((65 <=? n) && (n <=? 90)) || ((97 <=? n) && (n <=? 122)).

Definition is_digit (c : ascii) : bool :=
  let n := nat_of_ascii c in (48 <=? n) && (n <=? 57).

(** [break_at p l] splits [l] before its first character satisfying [p]:
    the prefix, and the rest starting at that character ([] if none).
    [l.split(c, 1)], [l.partition(c)] and [l.find(c)] are read off it. *)
Fixpoint break_at (p : ascii -> bool) (l : str) : str * str :=
  match l with
  | [] => ([], [])
  | c :: l' =>
      if p c then ([], l)
      else let (a, b) := break_at p l' in (c :: a, b)
  end.

(** [l.partition(c)]: (before, found, after). *)
Definition partition (c : ascii) (l : str) : str * bool * str :=
  match break_at (ascii_eqb c) l with
  | (a, _ :: b) => (a, true, b)
  | (a, []) => (a, false, [])
  end.

(** [l.rpartition(c)[2]]: what follows the last [c], or all of [l]. *)
Definition after_last (c : ascii) (l : str) : str :=
  match break_at (ascii_eqb c) (rev l) with
  | (a, _) => rev a
  end.

(** [l.replace(old, new)] *)
Fixpoint starts_with (pre l : str) : bool :=
  match pre, l with
  | [], _ => true
  | x :: pre', y :: l' => ascii_eqb x y && starts_with pre' l'
  | _ :: _, [] => false
  end.

Fixpoint replace_fuel (fuel : nat) (old new l : str) : str :=
  match fuel with
  | O => l
  | S fuel' =>
      match l with
      | [] => []
      | c :: l' =>
          if starts_with old l
          then new ++ replace_fuel fuel' old new (skipn (List.length old) l)
          else c :: replace_fuel fuel' old new l'
      end
  end.

Definition replace (old new l : str) : str :=
  match old with
  | [] => l
  | _ => replace_fuel (List.length l) old new l
  end.

(** [sep.join(xs)] *)
Fixpoint join (sep : str) (xs : list str) : str :=
  match xs with
  | [] => []
  | [x] => x
  | x :: xs' => x ++ sep ++ join sep xs'
  end.

End PyStr.
Import PyStr.

(** ** Python's [urllib.parse.urlsplit] (CPython 3.12) and
       [_canonicalize_job_url] *)
Module Url.

Inductive exn :=
| PlaywrightError (timeout : bool)  (* PlaywrightTimeoutError is a subclass *)
| AttributeError
| ValueError
| OperationalError  (* sqlite3.OperationalError *)
| ClientError.      (* raised while building the Gemini client *)

Inductive outcome (A : Type) :=
| Ok (a : A)
| Raise (e : exn).
Arguments Ok {A} a.
Arguments Raise {A} e.

Definition bind {A B} (m : outcome A) (k : A -> outcome B) : outcome B :=
  match m with
  | Ok a => k a
  | Raise e => Raise e
  end.

Notation "'let*' x ':=' m 'in' k" := (bind m (fun x => k))
  (at level 200, x name, m at level 100, k at level 200).

Record SplitResult := {
  scheme : str;
  netloc : str;
  path : str;
  query : str;
  fragment : str }.

(** [_WHATWG_C0_CONTROL_OR_SPACE]: code points 0x00 to 0x20. *)
Definition is_c0_or_space (c : ascii) : bool := nat_of_ascii c <=? 32.

(** [_UNSAFE_URL_BYTES_TO_REMOVE] *)
Definition is_unsafe (c : ascii) : bool :=
  let n := nat_of_ascii c in (n =? 9) || (n =? 13) || (n =? 10).

(** [scheme_chars]: letters, digits, "+-." *)
Definition is_scheme_char (c : ascii) : bool :=
  is_alpha c || is_digit c || mem c (s "+-.").

Section UrlSplit.

(** [_check_bracketed_host]: [ipaddress.ip_address] and the IPvFuture
    pattern; [true] when the host is accepted. *)
Variable check_bracketed_host : str -> bool.

(** [_check_bracketed_netloc] *)
Definition check_bracketed_netloc (netloc : str) : outcome unit :=
  let hostname_and_port := after_last "@"%char netloc in
  match partition "["%char hostname_and_port with
  | (before_bracket, true, bracketed) =>
      match before_bracket with
      | _ :: _ => Raise ValueError
      | [] =>
          match partition "]"%char bracketed with
          | (hostname, _, port) =>
              match port with
              | c :: _ =>
                  if ascii_eqb c ":"%char then
                    if check_bracketed_host hostname then Ok tt
                    else Raise ValueError
                  else Raise ValueError
              | [] => if check_bracketed_host hostname then Ok tt
                      else Raise ValueError
              end
          end
      end
  | (_, false, _) =>
      match partition ":"%char hostname_and_port with
      | (hostname, _, _) =>
          if check_bracketed_host hostname then Ok tt else Raise ValueError
      end
  end.

(** [i = url.find(':')]; [if i > 0 and url[0].isascii() and url[0].isalpha()]
    and every character of [url[:i]] is a scheme character:
    [scheme, url = url[:i].lower(), url[i+1:]]. *)
Definition split_scheme (url : str) : str * str :=
  match break_at (ascii_eqb ":"%char) url with
  | (c0 :: before, _ :: after) =>
      if is_alpha c0 && forallb is_scheme_char (c0 :: before)
      then (lower (c0 :: before), after)
      else ([], url)
  | _ => ([], url)
  end.

Definition is_netloc_delim (c : ascii) : bool := mem c (s "/?#").

(** [if url[:2] == '//': netloc, url = _splitnetloc(url, 2)] *)
Definition split_netloc (url : str) : str * str :=
  if starts_with (s "//") url then break_at is_netloc_delim (skipn 2 url)
  else ([], url).

(** The IPv6 bracket checks on the netloc. *)
Definition check_netloc_brackets (netloc : str) : outcome unit :=
  let ob := mem "["%char netloc in
  let cb := mem "]"%char netloc in
  if (ob && negb cb) || (cb && negb ob) then Raise ValueError
  else if ob && cb then check_bracketed_netloc netloc
  else Ok tt.

(** [url.split(c, 1)] guarded by [if c in url]. *)
Definition split_off (c : ascii) (url : str) : str * str :=
  match break_at (ascii_eqb c) url with
  | (a, _ :: b) => (a, b)
  | (a, []) => (url, [])
  end.

Definition urlsplit (url0 : str) : outcome SplitResult :=
  let url1 := lstrip_by is_c0_or_space url0 in
  let url2 := filter (fun c => negb (is_unsafe c)) url1 in
  let (sch, url3) := split_scheme url2 in
  let (net, url4) := split_netloc url3 in
  let* _ := check_netloc_brackets net in
  let (url5, frag) := split_off "#"%char url4 in
  let (pth, qry) := split_off "?"%char url5 in
  (* [_checknetloc] returns at once on an ASCII netloc. *)
  Ok {| scheme := sch; netloc := net; path := pth; query := qry;
        fragment := frag |}.

(** [_canonicalize_job_url] *)
Definition canonicalize_job_url (url : str) : outcome str :=
  let* parts := urlsplit url in
  match scheme parts, netloc parts with
  | [], _ | _, [] => Ok url
  | sch, net => Ok (sch ++ s "://" ++ net ++ path parts)
  end.

End UrlSplit.

End Url.
Import Url.

(** ** [src/schema/job.py] *)
Module Schema.

Record date := { year : Z; month : Z; day : Z }.

Record JobListing := {
  id : str;
  title : option str;
  company : option str;
  job_url : str;
  location : option str;
  description : option str;
  date_posted : option date }.

End Schema.

(** ** [src/utils/storage.py]: [JobDatabase] over its SQLite connection *)
Module Storage.
Import Schema.

(** A row of table [jobs]; [None] is SQL [NULL]. *)
Record Row := {
  row_id : str;
  url : str;
  row_title : option str;
  row_company : option str;
  row_date_posted : option str;
  row_location : option str;
  remote : str;
  status : str;
  relevance_score : option Z }.

(** Statements sent to SQLite, one per [execute]/[executemany] call. *)
Inductive Stmt :=
| DeleteDuplicateUrls
| InsertOrIgnore (rows : list Row)
| SelectUrlIn (urls : list str)
| UpdateScores (params : list (Z * str))
| Commit.

(** The state of [self._conn]: the table in rowid order,
    [total_changes], and the statements executed so far. *)
Record Conn := {
  rows : list Row;
  total_changes : nat;
  executed : list Stmt }.

Record JobDatabase := {
  db_remote : str;
  conn : Conn }.

Definition exec (c : Conn) (st : Stmt) (rs : list Row) (changes : nat) : Conn :=
  {| rows := rs; total_changes := total_changes c + changes;
     executed := executed c ++ [st] |}.

Definition commit (c : Conn) : Conn :=
  {| rows := rows c; total_changes := total_changes c;
     executed := executed c ++ [Commit] |}.

(** [DELETE FROM jobs WHERE rowid NOT IN (SELECT MIN(rowid) ... GROUP BY url)]:
    the first row of each URL survives. *)
Fixpoint keep_first_url (seen : list str) (rs : list Row) : list Row :=
  match rs with
  | [] => []
  | r :: rs' =>
      if str_in (url r) seen then keep_first_url seen rs'
      else r :: keep_first_url (url r :: seen) rs'
  end.

(** [JobDatabase(remote=...)]: a fresh connection to the backing file whose
    table holds [stored]; [CREATE TABLE IF NOT EXISTS] and
    [CREATE UNIQUE INDEX IF NOT EXISTS] leave an existing table as it is. *)
Definition JobDatabase_init (remote : str) (stored : list Row) : JobDatabase :=
  let c0 := {| rows := stored; total_changes := 0; executed := [] |} in
  let kept := keep_first_url [] stored in
  let c1 := exec c0 DeleteDuplicateUrls kept
                 (List.length stored - List.length kept) in
  {| db_remote := remote; conn := commit c1 |}.

(** [date.isoformat()]: [YYYY-MM-DD]. *)
Fixpoint fixed_digits (w : nat) (n : Z) : str :=
  match w with
  | O => []
  | S w' => fixed_digits w' (n / 10)
            ++ [ascii_of_nat (48 + Z.to_nat (n mod 10))]
  end.

Definition isoformat (d : date) : str :=
  fixed_digits 4 (year d) ++ s "-" ++ fixed_digits 2 (month d) ++ s "-"
  ++ fixed_digits 2 (day d).

(** The tuple built for each job in [add_jobs]. *)
Definition to_row (remote : str) (job : JobListing) : Row :=
  {| row_id := id job;
     url := job_url job;
     row_title := title job;
     row_company := company job;
     row_date_posted := option_map isoformat (date_posted job);
     row_location := location job;
     remote := remote;
     status := s "discovered";
     relevance_score := None |}.

(** [INSERT OR IGNORE]: the row is dropped when it would violate the primary
    key on [id] or the unique index on [url]. *)
Definition insert_or_ignore (rs : list Row) (r : Row) : list Row * nat :=
  if existsb (fun r' => str_eqb (row_id r') (row_id r) || str_eqb (url r') (url r)) rs
  then (rs, 0)
  else (rs ++ [r], 1).

Fixpoint insert_many (rs : list Row) (news : list Row) : list Row * nat :=
  match news with
  | [] => (rs, 0)
  | r :: news' =>
      let (rs1, n1) := insert_or_ignore rs r in
      let (rs2, n2) := insert_many rs1 news' in
      (rs2, n1 + n2)
  end.

(** [JobDatabase.add_jobs] *)
Definition add_jobs (db : JobDatabase) (jobs : list JobListing)
  : JobDatabase * nat :=
  match jobs with
  | [] => (db, 0)
  | _ =>
      let rws := map (to_row (db_remote db)) jobs in
      let c := conn db in
      let before := total_changes c in
      let (rs', n) := insert_many (rows c) rws in
      let c' := commit (exec c (InsertOrIgnore rws) rs' n) in
      ({| db_remote := db_remote db; conn := c' |}, total_changes c' - before)
  end.

(** [JobDatabase.get_new_jobs].  The query binds one [?] per URL, and
    SQLite refuses a statement with more than [max_variables] parameters
    (its [SQLITE_MAX_VARIABLE_NUMBER]: 999 before SQLite 3.32.0, 32766
    since) with [sqlite3.OperationalError: too many SQL variables]. *)
Definition get_new_jobs (max_variables : nat) (db : JobDatabase) (urls : list str)
  : outcome (JobDatabase * list str) :=
  match urls with
  | [] => Ok (db, [])
  | _ =>
      if max_variables <? List.length urls then Raise OperationalError else
      let c := conn db in
      let existing := map url (filter (fun r => str_in (url r) urls) (rows c)) in
      let c' := exec c (SelectUrlIn urls) (rows c) 0 in
      Ok ({| db_remote := db_remote db; conn := c' |},
          filter (fun u => negb (str_in u existing)) urls)
  end.

(** One [UPDATE jobs SET relevance_score = ?, status = 'scored' WHERE id = ?]:
    SQLite counts every row the [WHERE] clause matches as changed. *)
Definition update_one (rs : list Row) (p : Z * str) : list Row * nat :=
  let (score, job_id) := p in
  (map (fun r => if str_eqb (row_id r) job_id
                 then {| row_id := row_id r; url := url r;
                         row_title := row_title r; row_company := row_company r;
                         row_date_posted := row_date_posted r;
                         row_location := row_location r; remote := remote r;
                         status := s "scored";
                         relevance_score := Some score |}
                 else r) rs,
   List.length (filter (fun r => str_eqb (row_id r) job_id) rs)).

Fixpoint update_many (rs : list Row) (ps : list (Z * str)) : list Row * nat :=
  match ps with
  | [] => (rs, 0)
  | p :: ps' =>
      let (rs1, n1) := update_one rs p in
      let (rs2, n2) := update_many rs1 ps' in
      (rs2, n1 + n2)
  end.

(** [JobDatabase.update_scores]; scores are the integers of [JobScore]. *)
Definition update_scores (db : JobDatabase) (scores : list (str * Z))
  : JobDatabase * nat :=
  match scores with
  | [] => (db, 0)
  | _ =>
      let params := map (fun '(job_id, score) => (score, job_id)) scores in
      let c := conn db in
      let before := total_changes c in
      let (rs', n) := update_many (rows c) params in
      let c' := commit (exec c (UpdateScores params) rs' n) in
      ({| db_remote := db_remote db; conn := c' |}, total_changes c' - before)
  end.

End Storage.

(** ** [src/tools/linkedin_scraper.py] *)
Module Scraper.
Import Schema.

(** [JOB_TYPE_MAP], [EXPERIENCE_LEVEL_MAP], [REMOTE_MAP] *)
Definition JOB_TYPE_MAP : list (str * str) :=
  [(s "full-time", s "F"); (s "part-time", s "P"); (s "contract", s "C");
   (s "temporary", s "T"); (s "volunteer", s "V")].

Definition EXPERIENCE_LEVEL_MAP : list (str * str) :=
  [(s "internship", s "1"); (s "entry level", s "2"); (s "associate", s "3");
   (s "mid-senior level", s "4"); (s "director", s "5")].

Definition REMOTE_MAP : list (str * str) :=
  [(s "on-site", s "1"); (s "hybrid", s "3"); (s "remote", s "2")].

Fixpoint dict_get (d : list (str * str)) (k : str) : option str :=
  match d with
  | [] => None
  | (k', v) :: d' => if str_eqb k k' then Some v else dict_get d' k
  end.

(** [_normalize]: [None] and [[]] give [[]]; otherwise
    [[v.strip().lower() for v in values if v and v.strip()]]. *)
Definition normalize (values : option (list str)) : list str :=
  match values with
  | None | Some [] => []
  | Some vs =>
      map (fun v => lower (strip v))
          (filter (fun v => match v, strip v with
                            | _ :: _, _ :: _ => true
                            | _, _ => false
                            end) vs)
  end.

(** [[M[v] for v in _normalize(values) if v in M]] *)
Definition codes (M : list (str * str)) (values : option (list str)) : list str :=
  flat_map (fun v => match dict_get M v with
                     | Some c => [c]
                     | None => []
                     end) (normalize values).

(** The [params] dict of [search_jobs], in insertion order. *)
Definition search_params (query location : str)
  (job_type experience_level remote : option (list str)) : list (str * str) :=
  let job_type_codes := codes JOB_TYPE_MAP job_type in
  let experience_codes := codes EXPERIENCE_LEVEL_MAP experience_level in
  let remote_codes := codes REMOTE_MAP remote in
  [(s "keywords", query); (s "location", location)]
  ++ (match job_type_codes with [] => [] | _ => [(s "f_JT", join (s ",") job_type_codes)] end)
  ++ (match experience_codes with [] => [] | _ => [(s "f_E", join (s ",") experience_codes)] end)
  ++ (match remote_codes with [] => [] | _ => [(s "f_WT", join (s ",") remote_codes)] end).

(** [quote_plus] on ASCII text. *)
Definition hex_digit (n : nat) : ascii :=
  if n <? 10 then ascii_of_nat (48 + n) else ascii_of_nat (55 + n).

Definition quote_char (c : ascii) : str :=
  if is_alpha c || is_digit c || mem c (s "_.-~") then [c]
  else if ascii_eqb c " "%char then ["+"%char]
  else let n := nat_of_ascii c in ["%"%char; hex_digit (n / 16); hex_digit (n mod 16)].

Definition quote_plus (x : str) : str := flat_map quote_char x.

(** [urlencode(params, quote_via=quote_plus)] *)
Definition urlencode (params : list (str * str)) : str :=
  join (s "&") (map (fun '(k, v) => quote_plus k ++ s "=" ++ quote_plus v) params).

(** The browser as the code drives it.  Each call either returns or raises
    ([Raise]); Playwright raises only [PlaywrightError]s. *)
Record Element := {
  inner_text : outcome str;
  get_attribute : str -> outcome (option str) }.

Record Card := {
  query_selector : str -> outcome (option Element) }.

(** [browser_launch] stands for [sync_playwright()], [firefox.launch],
    [new_page] and [set_extra_http_headers], which run outside any [try].
    The sign-in modal handling and the debug screenshot swallow every
    exception and do not change what the code reads afterwards, so they
    have no counterpart. *)
Record Page := {
  browser_launch : outcome unit;
  goto : str -> outcome unit;
  wait_for_selector : str -> Z -> outcome unit;
  query_selector_all : str -> outcome (list Card) }.

(** [x or None] for an optional string *)
Definition or_none (x : option str) : option str :=
  match x with
  | Some (_ :: _) => x
  | _ => None
  end.

(** [(el.inner_text().strip() if el else "") or None] *)
Definition text_or_none (el : option Element) : outcome (option str) :=
  match el with
  | Some e => let* t := inner_text e in Ok (or_none (Some (strip t)))
  | None => Ok None
  end.

Section SearchJobs.

Variable check_bracketed_host : str -> bool.
(** [hashlib.md5(u.encode("utf-8")).hexdigest()] *)
Variable md5_hexdigest : str -> str.
(** [date.fromisoformat] and [datetime.fromisoformat(..).date()];
    [None] is a [ValueError]. *)
Variable date_fromisoformat : str -> option date.
Variable datetime_fromisoformat_date : str -> option date.

Definition parse_date (posted_raw : str) : option date :=
  match posted_raw with
  | [] => None
  | _ =>
      match date_fromisoformat posted_raw with
      | Some d => Some d
      | None => datetime_fromisoformat_date (replace (s "Z") (s "+00:00") posted_raw)
      end
  end.

(** The body of the card loop of [search_jobs], lines 147-201. *)
Definition parse_card (card : Card) : outcome JobListing :=
  let* title_el := query_selector card (s "h3.base-search-card__title") in
  let* company_el := query_selector card
       (s "h4.base-search-card__subtitle a, h4.base-search-card__subtitle") in
  let* location_el := query_selector card (s "span.job-search-card__location") in
  let* link_el := query_selector card (s "a.base-card__full-link") in
  let* date_el := query_selector card
       (s "time.job-search-card__listdate, time.job-search-card__listdate--new") in
  let* description_el := query_selector card
       (s "p.job-search-card__snippet, div.base-search-card__metadata p") in
  let* title := text_or_none title_el in
  let* company := text_or_none company_el in
  let* location_text := text_or_none location_el in
  let* job_url := match link_el with
                  | Some e => let* h := get_attribute e (s "href") in Ok (or_none h)
                  | None => Ok None
                  end in
  let* canonical_url := match job_url with
                        | Some u => let* c := canonicalize_job_url check_bracketed_host u in
                                    Ok (Some c)
                        | None => Ok None
                        end in
  let* posted_raw := match date_el with
                     | Some e =>
                         let* a := get_attribute e (s "datetime") in
                         match or_none a with
                         | Some v => Ok v
                         | None => let* t := inner_text e in Ok (strip t)
                         end
                     | None => Ok []
                     end in
  let* description := match description_el with
                      | Some e => let* t := inner_text e in Ok (Some (strip t))
                      | None => Ok None
                      end in
  (* [canonical_url.encode("utf-8")] on [None] raises [AttributeError] *)
  match canonical_url with
  | None => Raise AttributeError
  | Some cu =>
      let job_id := md5_hexdigest cu in
      let date_posted := parse_date posted_raw in
      Ok {| id := job_id; title := title; company := company; job_url := cu;
            location := location_text; description := description;
            date_posted := date_posted |}
  end.

(** The [try: for card in cards: ...] block; its handler
    [except PlaywrightError: ... return results]. *)
Fixpoint card_loop (limit : Z) (results : list JobListing) (cards : list Card)
  : outcome (list JobListing) :=
  match cards with
  | [] => Ok results
  | card :: cards' =>
      if (limit <=? Z.of_nat (List.length results))%Z then Ok results
      else match parse_card card with
           | Ok job => card_loop limit (results ++ [job]) cards'
           | Raise (PlaywrightError _) => Ok results
           | Raise e => Raise e
           end
  end.

Definition RESULTS_SELECTOR : str := s "ul.jobs-search__results-list > li".

Definition search_url (query location : str)
  (job_type experience_level remote : option (list str)) : str :=
  s "https://www.linkedin.com/jobs/search?"
  ++ urlencode (search_params query location job_type experience_level remote).

(** The [try:] block that waits for the results list and collects its
    cards, falling back to [div.base-card]. *)
Definition find_cards (page : Page) (wait_ms : Z) : outcome (list Card) :=
  let* _ := wait_for_selector page RESULTS_SELECTOR wait_ms in
  let* cards := query_selector_all page RESULTS_SELECTOR in
  match cards with
  | [] => query_selector_all page (s "div.base-card")
  | _ => Ok cards
  end.

(** [LinkedInScraper.search_jobs]; the modal dismissal and the debug
    screenshot swallow every exception and change nothing modelled here. *)
Definition search_jobs (page : Page) (query location : str)
  (job_type experience_level remote : option (list str)) (limit wait_ms : Z)
  : outcome (list JobListing) :=
  let url := search_url query location job_type experience_level remote in
  let* _ := browser_launch page in
  match goto page url with
  | Raise (PlaywrightError _) => Ok []
  | Raise e => Raise e
  | Ok _ =>
      match find_cards page wait_ms with
      | Raise (PlaywrightError _) => Ok []
      | Raise e => Raise e
      | Ok cards => card_loop limit [] cards
      end
  end.

End SearchJobs.

End Scraper.

(** ** [src/agents/nodes.py]: [job_discovery_node] *)
Module Nodes.
Import Schema Storage.

(** [scraper.search_jobs(query=, location=, job_type=, experience_level=,
    remote=)] with its default [limit] and [wait_ms]: one browser session
    per call, so any function of these arguments, for instance
    [fun q => Scraper.search_jobs .. (page_for q) q] *)
Definition SearchFn : Type :=
  str -> str -> option (list str) -> option (list str) -> option (list str)
  -> outcome (list JobListing).

(** [xs or None] for a filter list *)
Definition list_or_none (xs : list str) : option (list str) :=
  match xs with [] => None | _ => Some xs end.

(** [for job in filtered_jobs: if job.job_url in seen_urls: continue;
    seen_urls.add(job.job_url); found_jobs.append(job)] *)
Fixpoint merge_new (seen : list str) (found : list JobListing)
  (jobs : list JobListing) : list str * list JobListing :=
  match jobs with
  | [] => (seen, found)
  | job :: jobs' =>
      if str_in (job_url job) seen then merge_new seen found jobs'
      else merge_new (job_url job :: seen) (found ++ [job]) jobs'
  end.

Section Discovery.

(** SQLite's [SQLITE_MAX_VARIABLE_NUMBER], see [get_new_jobs]. *)
Variable max_variables : nat.
Variable search : SearchFn.
Variables (location : str) (job_type_filters experience_level_filters
  remote_filters : list str).

(** The [for query in search_queries] loop.  It returns the database, the
    batches passed to [db.add_jobs] in call order, and the [found_jobs] list,
    or the exception a [search_jobs] call raised (which leaves the loop and
    the node), or the exception [db.get_new_jobs] raised. *)
Fixpoint discovery_loop (db : JobDatabase) (seen : list str)
  (found : list JobListing) (calls : list (list JobListing))
  (queries : list str)
  : JobDatabase * list (list JobListing) * outcome (list JobListing) :=
  match queries with
  | [] => (db, calls, Ok found)
  | query :: queries' =>
      match search query location (list_or_none job_type_filters)
                   (list_or_none experience_level_filters)
                   (list_or_none remote_filters) with
      | Raise e => (db, calls, Raise e)
      | Ok [] => discovery_loop db seen found calls queries'
      | Ok jobs =>
          let urls := map job_url
                          (filter (fun j => match job_url j with [] => false | _ => true end)
                                  jobs) in
          match get_new_jobs max_variables db urls with
          | Raise e => (db, calls, Raise e)
          | Ok (db1, new_urls) =>
              let filtered_jobs := filter (fun j => str_in (job_url j) new_urls) jobs in
              let (db2, calls2) :=
                match filtered_jobs with
                | [] => (db1, calls)
                | _ => (fst (add_jobs db1 filtered_jobs), calls ++ [filtered_jobs])
                end in
              let (seen', found') := merge_new seen found filtered_jobs in
              discovery_loop db2 seen' found' calls2 queries'
          end
      end
  end.

End Discovery.

(** [remote_filters[0] if len(remote_filters) == 1 else ""] *)
Definition remote_value_of (remote_filters : list str) : str :=
  match remote_filters with
  | [r] => r
  | _ => []
  end.

(** [job_discovery_node].  [stored] is the [jobs] table of the backing file
    before the run; [profile_location] is [profile.location] ([None] when
    there is no profile).  The result is the table after the run, the
    [add_jobs] batches, and [found_jobs] (or the exception raised).
    [max_variables] is the SQLite build's [SQLITE_MAX_VARIABLE_NUMBER]. *)
Definition job_discovery_node (max_variables : nat) (search : SearchFn) (stored : list Row)
  (search_queries : list str) (profile_location : option str)
  (job_type_filters experience_level_filters remote_filters : list str)
  : list Row * list (list JobListing) * outcome (list JobListing) :=
  match search_queries with
  | [] => (stored, [], Ok [])
  | _ =>
      let location := match profile_location with
                      | Some ((_ :: _) as l) => l
                      | _ => []
                      end in
      let db := JobDatabase_init (remote_value_of remote_filters) stored in
      let '(db', calls, res) :=
        discovery_loop max_variables search location job_type_filters experience_level_filters
                       remote_filters db [] [] [] search_queries in
      (rows (conn db'), calls, res)
  end.

End Nodes.

(** ** Concrete inputs used below *)
(** ** [LinkedInScraper.scrape_job_descriptions] *)
Module Descriptions.
Import Schema Scraper.

(** The detail page the code drives.  Every call after a successful
    [page.goto(job.job_url)] happens while the page shows that URL, so what
    the page answers is a function of it. *)
Record DetailPage := {
  dp_launch : outcome unit;
  dp_goto : str -> outcome unit;
  dp_wait_for_timeout : str -> Z -> outcome unit;
  dp_query_selector : str -> str -> outcome (option Element) }.

Definition description_selectors : list str :=
  [s "div.show-more-less-html__markup"; s "div.description__text";
   s "section.show-more-less-html"; s "div.jobs-description__content"].

(** [descriptions[k] = v] on a dict, in insertion order. *)
Fixpoint dict_set (d : list (str * str)) (k v : str) : list (str * str) :=
  match d with
  | [] => [(k, v)]
  | (k', v') :: d' => if str_eqb k' k then (k', v) :: d' else (k', v') :: dict_set d' k v
  end.

(** The [for selector in description_selectors] loop; [current] is
    [description_text] so far ([None] before any assignment). *)
Fixpoint find_description (page : DetailPage) (u : str) (sels : list str)
  (current : option str) : outcome (option str) :=
  match sels with
  | [] => Ok current
  | sel :: sels' =>
      match dp_query_selector page u sel with
      | Raise (PlaywrightError _) => find_description page u sels' current
      | Raise e => Raise e
      | Ok None => find_description page u sels' current
      | Ok (Some el) =>
          match inner_text el with
          | Raise (PlaywrightError _) => find_description page u sels' current
          | Raise e => Raise e
          | Ok txt =>
              match strip txt with
              | [] => find_description page u sels' (Some [])
              | t' => Ok (Some t')
              end
          end
      end
  end.

(** The [for job in jobs] loop. *)
Fixpoint scrape_loop (page : DetailPage) (wait_ms : Z) (descr : list (str * str))
  (jobs : list JobListing) : outcome (list (str * str)) :=
  match jobs with
  | [] => Ok descr
  | job :: jobs' =>
      match job_url job with
      | [] => scrape_loop page wait_ms descr jobs'
      | u =>
          let attempt :=
            let* _ := dp_goto page u in
            let* _ := dp_wait_for_timeout page u wait_ms in
            find_description page u description_selectors None in
          match attempt with
          | Raise (PlaywrightError _) => scrape_loop page wait_ms descr jobs'
          | Raise e => Raise e
          | Ok dt =>
              let descr' := match dt with
                            | Some ((_ :: _) as txt) => dict_set descr (id job) txt
                            | _ => descr
                            end in
              (* the polite delay runs outside the [try] *)
              let* _ := dp_wait_for_timeout page u 1500 in
              scrape_loop page wait_ms descr' jobs'
          end
      end
  end.

(** [LinkedInScraper.scrape_job_descriptions]; [dp_launch] stands for
    [sync_playwright()], [firefox.launch], [new_page] and the headers. *)
Definition scrape_job_descriptions (page : DetailPage) (jobs : list JobListing)
  (wait_ms : Z) : outcome (list (str * str)) :=
  match jobs with
  | [] => Ok []
  | _ => let* _ := dp_launch page in scrape_loop page wait_ms [] jobs
  end.

End Descriptions.

(** ** [relevance_scorer_node] and [_format_jobs_block] *)
Module Scorer.
Import Schema Storage Scraper Descriptions.

(** [CandidateProfile]; [location] is [profile_location] here. *)
Record CandidateProfile := {
  technical_skills : list str;
  soft_skills : list str;
  experience_level : str;
  must_haves : list str;
  profile_location : str;
  summary : str }.

(** [JobScore]; [relevance_score] is an [int]. *)
Record JobScore := {
  job_id : str;
  relevance_score : Z;
  reasoning : str }.

Definition nl : str := [ascii_of_nat 10].

(** [x or default] for a string *)
Definition or_str (x default : str) : str :=
  match x with [] => default | _ => x end.

(** [x or 'N/A'] for an optional string *)
Definition or_na (x : option str) : str :=
  match x with Some ((_ :: _) as v) => v | _ => s "N/A" end.

(** [descriptions.get(job.id) or job.description or "(no description
    available)"], cut to 3000 characters plus ["..."] when longer. *)
Definition job_desc (descriptions : list (str * str)) (job : JobListing) : str :=
  let desc := match dict_get descriptions (id job) with
              | Some ((_ :: _) as d) => d
              | _ => match description job with
                     | Some ((_ :: _) as d) => d
                     | _ => s "(no description available)"
                     end
              end in
  if 3000 <? List.length desc then firstn 3000 desc ++ s "..." else desc.

Definition format_job (descriptions : list (str * str)) (job : JobListing) : str :=
  s "### Job ID: " ++ id job ++ nl
  ++ s "- **Title:** " ++ or_na (title job) ++ nl
  ++ s "- **Company:** " ++ or_na (company job) ++ nl
  ++ s "- **Location:** " ++ or_na (location job) ++ nl
  ++ s "- **Description:**" ++ nl ++ job_desc descriptions job ++ nl.

(** [_format_jobs_block] *)
Definition format_jobs_block (descriptions : list (str * str))
  (jobs : list JobListing) : str :=
  join nl (map (format_job descriptions) jobs).

(** [RELEVANCE_SCORING_PROMPT.format(...)] *)
Definition relevance_prompt (p : CandidateProfile) (jobs_block : str) : str :=
  s "You are scoring job listings for relevance to a specific candidate." ++ nl ++ nl
  ++ s "Candidate profile:" ++ nl
  ++ s "- Technical skills: " ++ or_str (join (s ", ") (technical_skills p)) (s "(none)") ++ nl
  ++ s "- Soft skills: " ++ or_str (join (s ", ") (soft_skills p)) (s "(none)") ++ nl
  ++ s "- Experience level: " ++ or_str (experience_level p) (s "(unspecified)") ++ nl
  ++ s "- Must-haves: " ++ or_str (join (s ", ") (must_haves p)) (s "(none)") ++ nl
  ++ s "- Location preference: " ++ or_str (profile_location p) (s "(unspecified)") ++ nl
  ++ s "- Summary: " ++ or_str (summary p) (s "(none)") ++ nl ++ nl
  ++ s "Score each job below on a 0-100 scale using this rubric:" ++ nl
  ++ s "- Technical skill match (0-35): How well do the job's required skills overlap with the candidate's technical skills?" ++ nl
  ++ s "- Experience level fit (0-25): Does the job's seniority match the candidate's experience level?" ++ nl
  ++ s "- Must-haves alignment (0-20): Does the job satisfy the candidate's must-have criteria?" ++ nl
  ++ s "- Location compatibility (0-10): Does the job location match the candidate's location preference (remote, city, etc.)?" ++ nl
  ++ s "- Overall role fit (0-10): How well does the overall role align with the candidate's professional summary and goals?" ++ nl ++ nl
  ++ s "Jobs to score:" ++ nl
  ++ jobs_block ++ nl ++ nl
  ++ s "Return a score (0-100) and a one-sentence reasoning for each job. Use the job_id exactly as provided." ++ nl.

(** [range(start, stop, step)]; [fuel] bounds the number of steps. *)
Fixpoint range_step (fuel : nat) (start stop step : nat) : list nat :=
  match fuel with
  | O => []
  | S fuel' =>
      if start <? stop then start :: range_step fuel' (start + step) stop step
      else []
  end.

Definition batch_size : nat := 5.

(** [found_jobs[i : i + batch_size] for i in range(0, len(found_jobs), batch_size)] *)
Definition batches (found_jobs : list JobListing) : list (list JobListing) :=
  map (fun i => firstn batch_size (skipn i found_jobs))
      (range_step (List.length found_jobs) 0 (List.length found_jobs) batch_size).

(** The Gemini model.  [llm_init] is the outcome of
    [ChatGoogleGenerativeAI(model=...).with_structured_output(JobScoreBatch)]
    (the constructor raises, for instance, without credentials);
    [llm_invoke] is [structured_llm.invoke]: the scores it returns for a
    prompt, or the exception the call raises. *)
Record LLM := {
  llm_init : outcome unit;
  llm_invoke : str -> outcome (list JobScore)
}.

(** The scoring loop: [except Exception] catches every failure of a
    batch, which then contributes no score. *)
Fixpoint score_batches (llm : LLM) (p : CandidateProfile)
  (descriptions : list (str * str)) (bs : list (list JobListing))
  (all_scores : list JobScore) : list JobScore :=
  match bs with
  | [] => all_scores
  | b :: bs' =>
      match llm_invoke llm (relevance_prompt p (format_jobs_block descriptions b)) with
      | Ok scs => score_batches llm p descriptions bs' (all_scores ++ scs)
      | Raise _ => score_batches llm p descriptions bs' all_scores
      end
  end.

(** [relevance_scorer_node].  [stored] is the [jobs] table of the backing
    file before the node runs; the result is the table afterwards and
    [scored_jobs], or the exception raised. *)
Definition relevance_scorer_node (page : DetailPage) (llm : LLM) (stored : list Row)
  (found_jobs : list JobListing) (profile : option CandidateProfile)
  (remote_filters : list str) : outcome (list Row * list JobScore) :=
  match found_jobs, profile with
  | [], _ | _, None => Ok (stored, [])
  | _, Some p =>
      let remote_value := Nodes.remote_value_of remote_filters in
      let* descriptions := scrape_job_descriptions page found_jobs 10000 in
      let* _ := llm_init llm in
      let all_scores := score_batches llm p descriptions (batches found_jobs) [] in
      let db := JobDatabase_init remote_value stored in
      let score_tuples := map (fun sc => (job_id sc, relevance_score sc)) all_scores in
      let (db', _) := update_scores db score_tuples in
      Ok (rows (conn db'), all_scores)
  end.

End Scorer.

Module Examples.
Import Schema Storage Scraper.

(** End-to-end scenario C: a store holding only [abc123]. *)
Definition abc_row : Row :=
  {| row_id := s "abc123"; url := s "https://www.linkedin.com/jobs/view/abc123";
     row_title := Some (s "ML Engineer"); row_company := Some (s "Acme");
     row_date_posted := None; row_location := Some (s "Berlin");
     remote := []; status := s "discovered"; relevance_score := None |}.

Definition db_only_abc : JobDatabase :=
  {| db_remote := [];
     conn := {| rows := [abc_row]; total_changes := 0; executed := [] |} |}.

Definition el_text (t : str) : Element :=
  {| inner_text := Ok t; get_attribute := fun _ => Ok None |}.

Definition el_link (href : str) : Element :=
  {| inner_text := Ok [];
     get_attribute := fun a => if str_eqb a (s "href") then Ok (Some href)
                               else Ok None |}.

Definition job_href : str :=
  s "https://de.linkedin.com/jobs/view/ml-engineer-1?refId=xyz&trk=public_jobs".

(** A complete result card. *)
Definition good_card : Card :=
  {| query_selector := fun sel =>
       if str_eqb sel (s "h3.base-search-card__title")
       then Ok (Some (el_text (s "ML Engineer")))
       else if str_eqb sel (s "a.base-card__full-link")
       then Ok (Some (el_link job_href))
       else Ok None |}.

(** A card without its [a.base-card__full-link]. *)
Definition linkless_card : Card :=
  {| query_selector := fun sel =>
       if str_eqb sel (s "h3.base-search-card__title")
       then Ok (Some (el_text (s "Data Scientist")))
       else Ok None |}.

(** A card whose DOM queries fail: the page's connection went away. *)
Definition broken_card : Card :=
  {| query_selector := fun _ => Raise (PlaywrightError false) |}.

(** A page that loads and lists [cards]. *)
Definition page_with (cards : list Card) : Page :=
  {| browser_launch := Ok tt;
     goto := fun _ => Ok tt;
     wait_for_selector := fun _ _ => Ok tt;
     query_selector_all := fun sel =>
       if str_eqb sel RESULTS_SELECTOR then Ok cards else Ok [] |}.

(** A page whose navigation times out. *)
Definition page_goto_timeout : Page :=
  {| browser_launch := Ok tt;
     goto := fun _ => Raise (PlaywrightError true);
     wait_for_selector := fun _ _ => Ok tt;
     query_selector_all := fun _ => Ok [] |}.

(** A page whose results list never renders. *)
Definition page_wait_timeout : Page :=
  {| browser_launch := Ok tt;
     goto := fun _ => Ok tt;
     wait_for_selector := fun _ _ => Raise (PlaywrightError true);
     query_selector_all := fun _ => Ok [] |}.

(** Stand-ins for the library functions, to evaluate closed instances. *)
Definition accept_host : str -> bool := fun _ => true.
Definition hash_stub : str -> str := fun u => u.
Definition no_date : str -> option date := fun _ => None.

(** End-to-end scenario B: two queries surface the same canonical URL. *)
Definition listing (u : str) (t : str) : JobListing :=
  {| id := u; title := Some t; company := None; job_url := u;
     location := None; description := None; date_posted := None |}.

Definition url_a : str := s "https://de.linkedin.com/jobs/view/a-1".
Definition url_b : str := s "https://de.linkedin.com/jobs/view/b-2".
Definition url_c : str := s "https://de.linkedin.com/jobs/view/c-3".

Definition search_two : Nodes.SearchFn :=
  fun query _ _ _ _ =>
    if str_eqb query (s "ML Engineer Berlin")
    then Ok [listing url_a (s "ML Engineer"); listing url_b (s "MLOps Engineer")]
    else Ok [listing url_b (s "MLOps Engineer"); listing url_c (s "AI Engineer")].

Definition queries_two : list str := [s "ML Engineer Berlin"; s "AI Engineer Berlin"].

(** What scenario B ends with: the merged listings, the [add_jobs]
    batches and the table. *)
Definition found_two : list JobListing :=
  [listing url_a (s "ML Engineer"); listing url_b (s "MLOps Engineer");
   listing url_c (s "AI Engineer")].
Definition calls_two : list (list JobListing) :=
  [[listing url_a (s "ML Engineer"); listing url_b (s "MLOps Engineer")];
   [listing url_c (s "AI Engineer")]].
Definition rows_two : list Row := map (to_row []) found_two.

(** A batch naming one URL twice, next to a new one. *)
Definition jobs_dup : list JobListing :=
  [listing url_a (s "ML Engineer"); listing url_a (s "ML Engineer II");
   listing url_b (s "MLOps Engineer")].

(** The listing [good_card] yields under [hash_stub]. *)
Definition good_job : JobListing :=
  {| id := s "https://de.linkedin.com/jobs/view/ml-engineer-1";
     title := Some (s "ML Engineer"); company := None;
     job_url := s "https://de.linkedin.com/jobs/view/ml-engineer-1";
     location := None; description := None; date_posted := None |}.

End Examples.

(** ** Example pages, profile and model for the description scraper and
       the scorer *)
Module ExtraExamples.
Import Url Schema Storage Scraper Descriptions Scorer Examples.

(** A detail page that shows the description of [url_a] under
    [div.description__text] and whose navigation to [url_b] times out. *)
Definition detail_page : DetailPage :=
  {| dp_launch := Ok tt;
     dp_goto := fun u => if str_eqb u url_b then Raise (PlaywrightError true) else Ok tt;
     dp_wait_for_timeout := fun _ _ => Ok tt;
     dp_query_selector := fun u sel =>
       if str_eqb sel (s "div.description__text") && str_eqb u url_a
       then Ok (Some (el_text (s "  Build ML pipelines.  ")))
       else Ok None |}.

(** A detail page whose navigation to [url_b] times out, and whose polite
    delay fails on the other pages: the browser went away after the page
    was read. *)
Definition closing_page : DetailPage :=
  {| dp_launch := Ok tt;
     dp_goto := fun u => if str_eqb u url_b then Raise (PlaywrightError true) else Ok tt;
     dp_wait_for_timeout := fun _ ms =>
       if Z.eqb ms 1500 then Raise (PlaywrightError false) else Ok tt;
     dp_query_selector := fun _ _ => Ok None |}.

Definition profile_ml : CandidateProfile :=
  {| technical_skills := [s "Python"; s "PyTorch"]; soft_skills := [];
     experience_level := s "entry level"; must_haves := [s "remote"];
     profile_location := s "Germany"; summary := s "ML engineer" |}.

(** A model that gives [url_a] a score of 80 whatever the prompt. *)
Definition llm_fixed : LLM :=
  {| llm_init := Ok tt;
     llm_invoke := fun _ => Ok [{| job_id := url_a; Scorer.relevance_score := 80%Z;
                                   reasoning := s "Good fit." |}] |}.

(** The same model when the client cannot be built. *)
Definition llm_no_client : LLM :=
  {| llm_init := Raise ClientError; llm_invoke := llm_invoke llm_fixed |}.

(** A card whose link has an unclosed IPv6 bracket in its host. *)
Definition bracket_card : Card :=
  {| query_selector := fun sel =>
       if str_eqb sel (s "h3.base-search-card__title")
       then Ok (Some (el_text (s "ML Engineer")))
       else if str_eqb sel (s "a.base-card__full-link")
       then Ok (Some (el_link (s "https://[x/jobs/view/1")))
       else Ok None |}.

(** A thousand listings with distinct URLs, [url_a ++ "-0000"] to
    [url_a ++ "-0999"]. *)
Definition listings_1000 : list JobListing :=
  map (fun n => listing (url_a ++ s "-" ++ fixed_digits 4 (Z.of_nat n)) (s "ML Engineer"))
      (seq 0 1000).

Definition jobs_ab : list JobListing :=
  [listing url_a (s "ML Engineer"); listing url_b (s "MLOps Engineer")].

End ExtraExamples.

(** ** Vocabulary of the statements below *)
Module Props.
Import Schema Storage.

(** The (id, url) key of a row and of a listing. *)
Definition row_key (r : Row) : str * str := (row_id r, url r).
Definition job_key (j : JobListing) : str * str := (id j, job_url j).

(** Among [ks], equal ids come with equal URLs: ids are a collision-free
    digest of the canonical URL, as the data model requires. *)
Definition key_consistent (ks : list (str * str)) : Prop :=
  forall k1 k2, In k1 ks -> In k2 ks -> fst k1 = fst k2 -> snd k1 = snd k2.

Definition key_consistentb (ks : list (str * str)) : bool :=
  forallb (fun k1 => forallb (fun k2 =>
    negb (str_eqb (fst k1) (fst k2)) || str_eqb (snd k1) (snd k2)) ks) ks.

(** The first listing of each URL, in order, skipping URLs in [seen]. *)
Fixpoint first_per_url (seen : list str) (jobs : list JobListing)
  : list JobListing :=
  match jobs with
  | [] => []
  | j :: jobs' =>
      if str_in (job_url j) seen then first_per_url seen jobs'
      else j :: first_per_url (job_url j :: seen) jobs'
  end.

(** The score the last pair naming [k] gives, if any. *)
Fixpoint last_score (k : str) (ps : list (str * Z)) : option Z :=
  match ps with
  | [] => None
  | (k', sc) :: ps' =>
      match last_score k ps' with
      | Some x => Some x
      | None => if str_eqb k' k then Some sc else None
      end
  end.

Definition with_score (sc : Z) (r : Row) : Row :=
  {| row_id := row_id r; url := url r; row_title := row_title r;
     row_company := row_company r; row_date_posted := row_date_posted r;
     row_location := row_location r; remote := remote r;
     status := s "scored"; relevance_score := Some sc |}.

(** Query string or fragment: empty, or starting with ['?'] or ['#']. *)
Definition query_or_fragment (x : str) : Prop :=
  x = [] \/ exists c rest, x = c :: rest /\ (c = "?"%char \/ c = "#"%char).

(** No ['?'] and no ['#'] in [x]. *)
Definition no_query_fragment (x : str) : Prop :=
  ~ In "?"%char x /\ ~ In "#"%char x.

Definition absolute (check_bracketed_host : str -> bool) (u : str) : Prop :=
  match urlsplit check_bracketed_host u with
  | Ok parts => scheme parts <> [] /\ netloc parts <> []
  | Raise _ => False
  end.

Definition outcome_map {A B} (f : A -> B) (m : outcome A) : outcome B :=
  match m with Ok a => Ok (f a) | Raise e => Raise e end.

(** Every listing some query returned to [job_discovery_node]. *)
Definition scraped (search : Nodes.SearchFn) (location : str)
  (jt el rf : list str) (queries : list str) : list JobListing :=
  flat_map (fun q => match search q location (Nodes.list_or_none jt)
                             (Nodes.list_or_none el) (Nodes.list_or_none rf) with
                     | Ok jobs => jobs
                     | Raise _ => []
                     end) queries.

Definition node_location (profile_location : option str) : str :=
  match profile_location with
  | Some ((_ :: _) as l) => l
  | _ => []
  end.

(** The code a filter tag contributes: the vocabulary entry of its trimmed,
    lower-cased form, or nothing. *)
Definition tag_code (M : list (str * str)) (v : str) : list str :=
  match Scraper.dict_get M (lower (strip v)) with
  | Some c => [c]
  | None => []
  end.

(** [batch_has u b]: the [add_jobs] batch [b] holds a listing of URL [u]. *)
Definition batch_has (u : str) (b : list JobListing) : bool :=
  existsb (fun j => str_eqb (job_url j) u) b.

(** What holds of the discovery loop between two queries, for the table
    [rs], the [seen_urls] set, [found_jobs] and the [add_jobs] batches so
    far; [stored] is the table before the run, [K] the keys it may hold. *)
Definition run_inv (stored : list Row) (K : list (str * str)) (rs : list Row)
  (seen : list str) (found : list JobListing) (calls : list (list JobListing))
  : Prop :=
  found = first_per_url [] (List.concat calls)
  /\ (forall x, In x seen <-> In x (map job_url (List.concat calls)))
  /\ (forall u, In u (map url rs) -> In u (map url stored) \/ In u seen)
  /\ (forall b j, In b calls -> In j b -> In (job_url j) (map url rs))
  /\ (forall u, List.length (filter (batch_has u) calls) <= 1)
  /\ incl (map row_key rs) K.

(** The scraper returned [jobs] for query [q] in a run with these filters. *)
Definition returned (search : Nodes.SearchFn) (location : str) (jt el rf : list str)
  (q : str) (jobs : list JobListing) : Prop :=
  search q location (Nodes.list_or_none jt) (Nodes.list_or_none el)
    (Nodes.list_or_none rf) = Ok jobs.

End Props.
Import Props.

(** ** Facts about the Python helpers *)
Module PyStrFacts.

Lemma ascii_eqb_eq a b : ascii_eqb a b = true <-> a = b.
Proof. unfold ascii_eqb. apply Ascii.eqb_eq. Qed.

Lemma str_eqb_eq a b : str_eqb a b = true <-> a = b.
Proof.
  revert b; induction a as [|x a IH]; intros [|y b]; simpl; try easy.
  rewrite andb_true_iff, ascii_eqb_eq, IH.
  split; [intros [-> ->]; reflexivity | intros H; injection H; auto].
Qed.

Lemma str_eqb_refl a : str_eqb a a = true.
Proof. apply str_eqb_eq; reflexivity. Qed.

Lemma str_in_iff x xs : str_in x xs = true <-> In x xs.
Proof.
  induction xs as [|y ys IH]; simpl; [easy|].
  rewrite orb_true_iff, str_eqb_eq, IH.
  split; intros [H|H]; auto.
Qed.

Lemma str_in_false x xs : str_in x xs = false <-> ~ In x xs.
Proof.
  rewrite <- str_in_iff. destruct (str_in x xs); split; congruence.
Qed.

End PyStrFacts.
Import PyStrFacts.

(** ** Filter normalization *)
Module FilterFacts.
Import Scraper.

Lemma flat_map_map_filter {A B : Type} (F : A -> list B) (G : A -> A)
  (P : A -> bool) (l : list A) :
  (forall x, P x = false -> F (G x) = []) ->
  flat_map F (map G (filter P l)) = flat_map (fun x => F (G x)) l.
Proof.
  intros HF; induction l as [|x l IH]; simpl; [reflexivity|].
  destruct (P x) eqn:Hx; simpl; rewrite IH; [reflexivity|].
  rewrite (HF x Hx); reflexivity.
Qed.

Lemma codes_tag_code (M : list (str * str)) (vs : list str) :
  dict_get M [] = None ->
  codes M (Some vs) = flat_map (tag_code M) vs.
Proof.
  intros HM. destruct vs as [|v0 vs]; [reflexivity|].
  unfold codes, normalize, tag_code.
  apply (flat_map_map_filter
           (fun v => match dict_get M v with Some c => [c] | None => [] end)).
  intros x Hx. destruct x as [|a x].
  - cbn. rewrite HM. reflexivity.
  - destruct (strip (a :: x)) as [|b y] eqn:E.
    + cbn. rewrite HM. reflexivity.
    + cbn in Hx. discriminate.
Qed.

(** C9 *)
(** Claim C9: each filter tag is trimmed and lower-cased, then looked up in
    the fixed vocabulary of its filter; a tag with no entry contributes
    nothing (no error).  "Remote" gives the code of "remote", "anywhere" is
    dropped and leaves the remote code set empty, so no [f_WT] parameter. *)
Theorem filter_tags_normalized :
  (forall vs, codes JOB_TYPE_MAP (Some vs) = flat_map (tag_code JOB_TYPE_MAP) vs) /\
  (forall vs, codes EXPERIENCE_LEVEL_MAP (Some vs)
              = flat_map (tag_code EXPERIENCE_LEVEL_MAP) vs) /\
  (forall vs, codes REMOTE_MAP (Some vs) = flat_map (tag_code REMOTE_MAP) vs) /\
  codes REMOTE_MAP (Some [s "Remote"]) = codes REMOTE_MAP (Some [s "remote"]) /\
  codes REMOTE_MAP (Some [s "Remote"]) = [s "2"] /\
  codes REMOTE_MAP (Some [s "anywhere"]) = [] /\
  (forall query location jt el,
     search_params query location jt el (Some [s "anywhere"])
     = search_params query location jt el None).
Proof.
  repeat split.
  - intros vs; apply codes_tag_code; reflexivity.
  - intros vs; apply codes_tag_code; reflexivity.
  - intros vs; apply codes_tag_code; reflexivity.
Qed.

End FilterFacts.

(** ** The listing store *)
Module StoreFacts.
Import Schema Storage.

Lemma str_eqb_sym a b : str_eqb a b = str_eqb b a.
Proof.
  apply Bool.eq_iff_eq_true. rewrite !str_eqb_eq. split; auto.
Qed.

(** When [get_new_jobs] returns, it returns the input URLs absent from the
    table, and the table and the remote tag are unchanged. *)
Lemma get_new_jobs_ok (m : nat) (db : JobDatabase) (urls : list str)
  (db' : JobDatabase) (nu : list str) :
  get_new_jobs m db urls = Ok (db', nu) ->
  nu = filter (fun u => negb (str_in u (map url (rows (conn db))))) urls
  /\ rows (conn db') = rows (conn db) /\ db_remote db' = db_remote db.
Proof.
  destruct urls as [|u0 urls]; [intros H; injection H as <- <-; auto|].
  set (l := u0 :: urls).
  assert (Hf : filter (fun u => negb (str_in u
                 (map url (filter (fun r => str_in (url r) l) (rows (conn db)))))) l
               = filter (fun u => negb (str_in u (map url (rows (conn db))))) l).
  { apply filter_ext_in. intros u Hu. f_equal.
  apply Bool.eq_iff_eq_true. rewrite !str_in_iff, !in_map_iff.
  split.
  - intros [r [Hr Hin]]. apply filter_In in Hin. exists r. tauto.
  - intros [r [Hr Hin]]. exists r. split; [assumption|].
    apply filter_In. split; [assumption|]. apply str_in_iff. subst. exact Hu. }
  unfold get_new_jobs, l. destruct (m <? _); [discriminate|].
  intros H; injection H as <- <-. split; [exact Hf | split; reflexivity].
Qed.

Lemma get_new_jobs_within (m : nat) (db : JobDatabase) (urls : list str) :
  List.length urls <= m -> exists r, get_new_jobs m db urls = Ok r.
Proof.
  intros H. destruct urls as [|u0 urls]; [eexists; reflexivity|].
  unfold get_new_jobs. destruct (m <? _) eqn:E; [apply Nat.ltb_lt in E; lia|].
  eexists; reflexivity.
Qed.

Lemma get_new_jobs_over (m : nat) (db : JobDatabase) (urls : list str) :
  m < List.length urls -> get_new_jobs m db urls = Raise OperationalError.
Proof.
  intros H. destruct urls as [|u0 urls]; [cbn in H; lia|].
  unfold get_new_jobs. apply Nat.ltb_lt in H. rewrite H. reflexivity.
Qed.

Lemma count_matching_id (rs : list Row) (k : str) :
  NoDup (map row_id rs) ->
  List.length (filter (fun r => str_eqb (row_id r) k) rs)
  = if str_in k (map row_id rs) then 1 else 0.
Proof.
  induction rs as [|r rs IH]; intros Hnd; [reflexivity|].
  inversion Hnd as [|x l Hnotin Hnd']; subst.
  cbn [filter map str_in]. rewrite (str_eqb_sym k).
  destruct (str_eqb (row_id r) k) eqn:E; cbn [List.length].
  - apply str_eqb_eq in E; subst.
    rewrite IH by assumption.
    destruct (str_in (row_id r) (map row_id rs)) eqn:E2; [|reflexivity].
    apply str_in_iff in E2; contradiction.
  - rewrite IH by assumption. reflexivity.
Qed.

Lemma update_one_ids (rs : list Row) p :
  map row_id (fst (update_one rs p)) = map row_id rs.
Proof.
  destruct p as [sc k]; cbn. rewrite map_map.
  apply map_ext. intros r. destruct (str_eqb (row_id r) k); reflexivity.
Qed.

Lemma update_many_spec (rs : list Row) (ps : list (str * Z)) :
  NoDup (map row_id rs) ->
  update_many rs (map (fun '(job_id, score) => (score, job_id)) ps)
  = (map (fun r => match last_score (row_id r) ps with
                   | Some sc => with_score sc r
                   | None => r
                   end) rs,
     List.length (filter (fun p => str_in (fst p) (map row_id rs)) ps)).
Proof.
  revert rs; induction ps as [|[k sc] ps IH]; intros rs Hnd.
  - cbn. f_equal. induction rs as [|r rs IHrs]; [reflexivity|].
    cbn. f_equal. apply IHrs. inversion Hnd; assumption.
  - cbn [map update_many].
    destruct (update_one rs (sc, k)) as [rs1 n1] eqn:E1.
    assert (Hids : map row_id rs1 = map row_id rs).
    { rewrite <- (update_one_ids rs (sc, k)), E1. reflexivity. }
    rewrite IH by (rewrite Hids; assumption).
    cbn in E1. injection E1 as <- <-.
    f_equal.
    + rewrite map_map. apply map_ext. intros r.
      cbn [last_score]. rewrite (str_eqb_sym k).
      destruct (str_eqb (row_id r) k); cbn [row_id];
        destruct (last_score (row_id r) ps); reflexivity.
    + rewrite Hids. cbn [filter fst]. rewrite count_matching_id by assumption.
      destruct (str_in k (map row_id rs)); reflexivity.
Qed.

(** C6, counterexample: a thousand distinct URLs, none of them stored,
    make [get_new_jobs] raise [OperationalError] on a SQLite build older
    than 3.32 (999 parameters at most) instead of returning them. *)
Lemma get_new_jobs_too_many_urls :
  get_new_jobs 999 Examples.db_only_abc (map job_url ExtraExamples.listings_1000)
  = Raise OperationalError.
Proof. vm_compute. reflexivity. Qed.

(** C6 *)
(** Claim C6, amended: with [max_variables] SQLite's bound on the parameters
    of a statement, [get_new_jobs] on at most [max_variables] URLs returns
    exactly the input URLs absent from the store, in input order (duplicates
    kept), and leaves the table unchanged; on more URLs it raises
    [OperationalError]; on empty input it returns the empty list and leaves
    the connection untouched (no statement runs). *)
Theorem get_new_jobs_in_order (max_variables : nat) (db : JobDatabase) (urls : list str) :
  (List.length urls <= max_variables ->
   exists db', get_new_jobs max_variables db urls
               = Ok (db', filter (fun u => negb (str_in u (map url (rows (conn db))))) urls)
     /\ rows (conn db') = rows (conn db))
  /\ (max_variables < List.length urls ->
      get_new_jobs max_variables db urls = Raise OperationalError)
  /\ get_new_jobs max_variables db [] = Ok (db, []).
Proof.
  split; [|split; [apply get_new_jobs_over | reflexivity]].
  intros Hm. destruct (get_new_jobs_within max_variables db urls Hm) as [[db' nu] E].
  exists db'. destruct (get_new_jobs_ok _ _ _ _ _ E) as [-> [Hr _]].
  split; [exact E | exact Hr].
Qed.

(** C7 *)
(** Claim C7 (as stated, refuted): with the id [abc123] named twice,
    [update_scores] returns 2 while the store holds one row: the count is one
    per matching [UPDATE], not one per modified row. *)
Lemma update_scores_counts_repeated_id :
  snd (update_scores Examples.db_only_abc
         [(s "abc123", 87%Z); (s "abc123", 90%Z)]) = 2
  /\ List.length (rows (conn Examples.db_only_abc)) = 1.
Proof. vm_compute. split; reflexivity. Qed.

(** Claim C7 (amended): when ids are unique in the store (its primary key),
    [update_scores] returns the number of (id, score) pairs whose id is
    present; every row named by some pair ends with status 'scored' and the
    score of the last pair naming it; every other row is unchanged and
    absent ids are ignored without raising. *)
Theorem update_scores_present_pairs (db : JobDatabase) (scores : list (str * Z))
  (Hpk : NoDup (map row_id (rows (conn db)))) :
  snd (update_scores db scores)
  = List.length (filter (fun p => str_in (fst p) (map row_id (rows (conn db))))
                        scores)
  /\ rows (conn (fst (update_scores db scores)))
     = map (fun r => match last_score (row_id r) scores with
                     | Some sc => with_score sc r
                     | None => r
                     end) (rows (conn db)).
Proof.
  destruct scores as [|p ps].
  - split; [reflexivity|]. cbn. symmetry. apply map_id.
  - unfold update_scores.
    rewrite (update_many_spec _ (p :: ps) Hpk).
    cbn [fst snd conn rows total_changes commit exec].
    split; [lia | reflexivity].
Qed.

(** Key consistency holds of every sublist. *)
Lemma key_consistent_incl (ks ks' : list (str * str)) :
  incl ks' ks -> key_consistent ks -> key_consistent ks'.
Proof. intros Hi H k1 k2 H1 H2. apply H; auto. Qed.

Lemma keep_first_url_seen_ext (s1 s2 : list str) (l : list Row) :
  (forall x, str_in x s1 = str_in x s2) ->
  keep_first_url s1 l = keep_first_url s2 l.
Proof.
  revert s1 s2; induction l as [|r l IH]; intros s1 s2 Hs; [reflexivity|].
  cbn. rewrite Hs. destruct (str_in (url r) s2); [apply IH; assumption|].
  f_equal. apply IH. intros x. cbn. rewrite Hs. reflexivity.
Qed.

Lemma map_url_app_one (rs : list Row) (r : Row) x :
  str_in x (map url (rs ++ [r])) = str_in x (url r :: map url rs).
Proof.
  apply Bool.eq_iff_eq_true. rewrite !str_in_iff, map_app, in_app_iff.
  cbn. tauto.
Qed.

Lemma insert_many_spec (rs news : list Row) :
  key_consistent (map row_key rs ++ map row_key news) ->
  insert_many rs news
  = (rs ++ keep_first_url (map url rs) news,
     List.length (keep_first_url (map url rs) news)).
Proof.
  revert rs; induction news as [|r news IH]; intros rs Hk.
  - cbn. rewrite app_nil_r. reflexivity.
  - cbn [insert_many]. unfold insert_or_ignore.
    destruct (existsb _ rs) eqn:E.
    + (* ignored: some row already has this URL (an equal id forces it) *)
      assert (Hin : str_in (url r) (map url rs) = true).
      { apply existsb_exists in E as [r' [Hr' Hm]].
        apply orb_true_iff in Hm as [Hid|Hu];
          apply str_in_iff, in_map_iff; exists r'; split; auto.
        - apply str_eqb_eq in Hid.
          apply (Hk (row_key r') (row_key r)); auto.
          + apply in_or_app; left; apply in_map; assumption.
          + apply in_or_app; right; left; reflexivity.
        - apply str_eqb_eq in Hu; assumption. }
      rewrite IH.
      * cbn [keep_first_url]. rewrite Hin. reflexivity.
      * refine (key_consistent_incl _ _ _ Hk). intros k Hk'.
        apply in_app_or in Hk' as [H|H]; apply in_or_app; [left|right; right]; exact H.
    + assert (Hout : str_in (url r) (map url rs) = false).
      { apply str_in_false. intros Hm. apply in_map_iff in Hm as [r' [Hu Hr']].
        assert (Hx : existsb (fun r' => str_eqb (row_id r') (row_id r)
                                       || str_eqb (url r') (url r)) rs = true).
        { apply existsb_exists. exists r'. split; [assumption|].
          rewrite Hu, str_eqb_refl, orb_true_r. reflexivity. }
        rewrite Hx in E. discriminate. }
      rewrite IH.
      * cbn [keep_first_url]. rewrite Hout.
        rewrite (keep_first_url_seen_ext (map url (rs ++ [r])) (url r :: map url rs))
          by apply map_url_app_one.
        rewrite <- app_assoc. reflexivity.
      * refine (key_consistent_incl _ _ _ Hk). intros k Hk'.
        rewrite map_app, <- app_assoc in Hk'. exact Hk'.
Qed.

Lemma key_consistentb_spec (ks : list (str * str)) :
  key_consistentb ks = true -> key_consistent ks.
Proof.
  unfold key_consistentb. intros H k1 k2 H1 H2 Heq.
  rewrite forallb_forall in H. specialize (H k1 H1).
  rewrite forallb_forall in H. specialize (H k2 H2).
  rewrite Heq, str_eqb_refl in H. cbn in H. apply str_eqb_eq. exact H.
Qed.

Lemma keep_first_url_to_row (rm : str) (seen : list str) (jobs : list JobListing) :
  keep_first_url seen (map (to_row rm) jobs)
  = map (to_row rm) (first_per_url seen jobs).
Proof.
  revert seen; induction jobs as [|j jobs IH]; intros seen; [reflexivity|].
  cbn. destruct (str_in (job_url j) seen); cbn; rewrite IH; reflexivity.
Qed.

Lemma map_row_key_to_row (rm : str) (jobs : list JobListing) :
  map row_key (map (to_row rm) jobs) = map job_key jobs.
Proof. rewrite map_map. reflexivity. Qed.

Lemma first_per_url_incl (seen : list str) (jobs : list JobListing) :
  incl (first_per_url seen jobs) jobs.
Proof.
  revert seen; induction jobs as [|j jobs IH]; intros seen; cbn; [easy|].
  destruct (str_in (job_url j) seen).
  - intros x Hx. right. apply (IH seen x Hx).
  - intros x [Hx|Hx]; [left; assumption | right; apply (IH _ x Hx)].
Qed.

Lemma first_per_url_covers (seen : list str) (jobs : list JobListing) j :
  In j jobs -> In (job_url j) (seen ++ map job_url (first_per_url seen jobs)).
Proof.
  revert seen; induction jobs as [|j' jobs IH]; intros seen Hj; [easy|].
  cbn. destruct (str_in (job_url j') seen) eqn:E.
  - destruct Hj as [<-|Hj]; [apply in_or_app; left; apply str_in_iff; exact E|].
    apply IH; assumption.
  - destruct Hj as [<-|Hj]; [apply in_or_app; right; left; reflexivity|].
    specialize (IH (job_url j' :: seen) Hj). cbn in IH.
    apply in_or_app. destruct IH as [H|H]; [right; left; exact H|].
    apply in_app_or in H as [H|H]; [left; exact H | right; right; exact H].
Qed.

Lemma first_per_url_nil (seen : list str) (jobs : list JobListing) :
  (forall j, In j jobs -> In (job_url j) seen) -> first_per_url seen jobs = [].
Proof.
  induction jobs as [|j jobs IH]; intros H; [reflexivity|].
  cbn. rewrite (proj2 (str_in_iff _ _) (H j (or_introl eq_refl))).
  apply IH. intros j' Hj'. apply H. right. exact Hj'.
Qed.

(** What [add_jobs] does to the table, under the data-model invariant. *)
Lemma add_jobs_spec (db : JobDatabase) (jobs : list JobListing) :
  key_consistent (map row_key (rows (conn db)) ++ map job_key jobs) ->
  rows (conn (fst (add_jobs db jobs)))
  = rows (conn db)
    ++ map (to_row (db_remote db)) (first_per_url (map url (rows (conn db))) jobs)
  /\ snd (add_jobs db jobs)
     = List.length (first_per_url (map url (rows (conn db))) jobs)
  /\ db_remote (fst (add_jobs db jobs)) = db_remote db.
Proof.
  intros Hk. destruct jobs as [|j js].
  - cbn. rewrite app_nil_r. auto.
  - unfold add_jobs. cbv beta iota zeta.
    rewrite insert_many_spec by (rewrite map_row_key_to_row; exact Hk).
    cbn [fst snd conn rows total_changes commit exec db_remote].
    rewrite keep_first_url_to_row, length_map.
    repeat split; lia.
Qed.

Lemma add_jobs_all_present (db : JobDatabase) (jobs : list JobListing) :
  key_consistent (map row_key (rows (conn db)) ++ map job_key jobs) ->
  forall j, In j jobs -> In (job_url j) (map url (rows (conn (fst (add_jobs db jobs))))).
Proof.
  intros Hk j Hj. destruct (add_jobs_spec db jobs Hk) as [Hr _].
  rewrite Hr, map_app, map_map. cbn.
  rewrite <- (map_map (fun x => x) job_url), map_id.
  exact (first_per_url_covers _ _ j Hj).
Qed.

Lemma add_jobs_keys (db : JobDatabase) (jobs : list JobListing) :
  key_consistent (map row_key (rows (conn db)) ++ map job_key jobs) ->
  incl (map row_key (rows (conn (fst (add_jobs db jobs)))))
       (map row_key (rows (conn db)) ++ map job_key jobs).
Proof.
  intros Hk. destruct (add_jobs_spec db jobs Hk) as [Hr _].
  rewrite Hr, map_app, map_row_key_to_row.
  apply incl_app; [apply incl_appl, incl_refl|].
  apply incl_appr. apply incl_map, first_per_url_incl.
Qed.

(** C2 *)
(** Claim C2: under the data-model invariant (equal ids only for equal
    canonical URLs, among the stored rows and the batch), [add_jobs] appends
    one row for the first listing of each URL not yet stored, in batch order,
    leaves the existing rows as they are, and returns the number appended;
    a second call with the same batch appends nothing and returns 0. *)
Theorem add_jobs_inserts_new_urls_once (db : JobDatabase) (jobs : list JobListing)
  (Hkeys : key_consistent (map row_key (rows (conn db)) ++ map job_key jobs)) :
  rows (conn (fst (add_jobs db jobs)))
    = rows (conn db)
      ++ map (to_row (db_remote db)) (first_per_url (map url (rows (conn db))) jobs)
  /\ snd (add_jobs db jobs) = List.length (first_per_url (map url (rows (conn db))) jobs)
  /\ snd (add_jobs (fst (add_jobs db jobs)) jobs) = 0
  /\ rows (conn (fst (add_jobs (fst (add_jobs db jobs)) jobs)))
     = rows (conn (fst (add_jobs db jobs))).
Proof.
  destruct (add_jobs_spec db jobs Hkeys) as [Hr [Hn _]].
  assert (Hk1 : key_consistent (map row_key (rows (conn (fst (add_jobs db jobs))))
                                ++ map job_key jobs)).
  { refine (key_consistent_incl _ _ _ Hkeys).
    apply incl_app; [apply add_jobs_keys, Hkeys | apply incl_appr, incl_refl]. }
  destruct (add_jobs_spec (fst (add_jobs db jobs)) jobs Hk1) as [Hr2 [Hn2 _]].
  rewrite first_per_url_nil in Hr2, Hn2 by (apply add_jobs_all_present; exact Hkeys).
  repeat split; auto.
  rewrite Hr2. apply app_nil_r.
Qed.

(** C8, counterexample: right after [add_jobs] of a thousand listings with
    distinct URLs, [get_new_jobs] on their URLs raises [OperationalError] on
    a SQLite build older than 3.32 instead of returning the empty list. *)
Lemma get_new_jobs_after_add_jobs_too_many :
  get_new_jobs 999 (fst (add_jobs Examples.db_only_abc ExtraExamples.listings_1000))
    (map job_url ExtraExamples.listings_1000)
  = Raise OperationalError.
Proof. apply get_new_jobs_over. apply Nat.ltb_lt. vm_compute. reflexivity. Qed.

(** C8 *)
(** Claim C8, amended: under the same invariant, right after
    [add_jobs jobs], [get_new_jobs] on the URLs of [jobs] returns the empty
    list when there are at most [max_variables] of them (SQLite's bound on
    the parameters of a statement), and raises [OperationalError] when there
    are more. *)
Theorem get_new_jobs_after_add_jobs (max_variables : nat) (db : JobDatabase)
  (jobs : list JobListing)
  (Hkeys : key_consistent (map row_key (rows (conn db)) ++ map job_key jobs)) :
  (List.length jobs <= max_variables ->
   exists db', get_new_jobs max_variables (fst (add_jobs db jobs)) (map job_url jobs)
               = Ok (db', []))
  /\ (max_variables < List.length jobs ->
      get_new_jobs max_variables (fst (add_jobs db jobs)) (map job_url jobs)
      = Raise OperationalError).
Proof.
  split; [|intros Hm; apply get_new_jobs_over; rewrite length_map; exact Hm].
  intros Hm.
  destruct (get_new_jobs_within max_variables (fst (add_jobs db jobs)) (map job_url jobs))
    as [[db' nu] E]; [rewrite length_map; exact Hm|].
  exists db'. rewrite E. do 2 f_equal.
  destruct (get_new_jobs_ok _ _ _ _ _ E) as [-> _]. clear E.
  pose proof (add_jobs_all_present db jobs Hkeys) as Hall.
  set (present := map url (rows (conn (fst (add_jobs db jobs))))) in *.
  assert (H : forall u, In u (map job_url jobs) -> In u present).
  { intros u Hu. apply in_map_iff in Hu as [j [<- Hj]]. apply Hall, Hj. }
  induction (map job_url jobs) as [|u us IH]; [reflexivity|].
  cbn. rewrite (proj2 (str_in_iff _ _) (H u (or_introl eq_refl))). cbn.
  apply IH. intros u' Hu'. apply H. right. exact Hu'.
Qed.

End StoreFacts.

(** ** The discovery node *)
Module NodeFacts.
Import Schema Storage Nodes.

Lemma insert_many_appends (rs news : list Row) :
  exists ins, fst (insert_many rs news) = rs ++ ins /\ incl ins news.
Proof.
  revert rs; induction news as [|r news IH]; intros rs.
  - exists []. split; [cbn; rewrite app_nil_r; reflexivity | intros x []].
  - cbn [insert_many]. unfold insert_or_ignore.
    destruct (existsb _ rs).
    + destruct (IH rs) as [ins [H1 H2]].
      destruct (insert_many rs news) as [rs2 n2] eqn:E. cbn in *.
      exists ins. split; [exact H1|]. intros x Hx. right. apply H2, Hx.
    + destruct (IH (rs ++ [r])) as [ins [H1 H2]].
      destruct (insert_many (rs ++ [r]) news) as [rs2 n2] eqn:E. cbn in *.
      exists (r :: ins). split; [rewrite H1, <- app_assoc; reflexivity|].
      intros x [Hx|Hx]; [left; exact Hx | right; apply H2, Hx].
Qed.

(** [add_jobs] only appends rows, each stamped with the database's [remote]. *)
Lemma add_jobs_appends_stamped (db : JobDatabase) (jobs : list JobListing) :
  exists ins, rows (conn (fst (add_jobs db jobs))) = rows (conn db) ++ ins
    /\ Forall (fun r => remote r = db_remote db) ins
    /\ db_remote (fst (add_jobs db jobs)) = db_remote db.
Proof.
  destruct jobs as [|j js].
  - exists []. cbn. rewrite app_nil_r. auto.
  - unfold add_jobs. cbv beta iota zeta.
    destruct (insert_many_appends (rows (conn db)) (map (to_row (db_remote db)) (j :: js)))
      as [ins [H1 H2]].
    destruct (insert_many _ _) as [rs' n] eqn:E. cbn in H1 |- *.
    exists ins. split; [exact H1|]. split; [|reflexivity].
    apply Forall_forall. intros r Hr. apply H2, in_map_iff in Hr as [x [<- _]].
    reflexivity.
Qed.

Lemma discovery_loop_appends_stamped m search location jt el rf queries :
  forall db seen found calls,
  let '(db', _, _) := discovery_loop m search location jt el rf db seen found calls queries in
  exists ins, rows (conn db') = rows (conn db) ++ ins
    /\ Forall (fun r => remote r = db_remote db) ins
    /\ db_remote db' = db_remote db.
Proof.
  induction queries as [|q queries IH]; intros db seen found calls.
  - exists []. cbn. rewrite app_nil_r. auto.
  - cbn [discovery_loop].
    destruct (search q _ _ _ _) as [jobs|e].
    2:{ exists []. rewrite app_nil_r. auto. }
    destruct jobs as [|j js]; [apply IH|].
    destruct (get_new_jobs m db _) as [[db1 new_urls]|e] eqn:Eg.
    2:{ exists []. rewrite app_nil_r. auto. }
    destruct (StoreFacts.get_new_jobs_ok _ _ _ _ _ Eg) as [_ [Hg1 Hg2]].
    set (filtered := filter (fun j => str_in (job_url j) new_urls) (j :: js)).
    assert (Hstep : exists db2 calls2,
               (match filtered with
                | [] => (db1, calls)
                | _ => (fst (add_jobs db1 filtered), calls ++ [filtered])
                end) = (db2, calls2)
               /\ exists ins, rows (conn db2) = rows (conn db) ++ ins
                  /\ Forall (fun r => remote r = db_remote db) ins
                  /\ db_remote db2 = db_remote db).
    { destruct filtered as [|f fs].
      - exists db1, calls. split; [reflexivity|]. exists []. rewrite app_nil_r. auto.
      - exists (fst (add_jobs db1 (f :: fs))), (calls ++ [f :: fs]). split; [reflexivity|].
        destruct (add_jobs_appends_stamped db1 (f :: fs)) as [ins [H1 [H2 H3]]].
        exists ins. rewrite H1, Hg1, H3, Hg2. rewrite Hg2 in H2. auto. }
    destruct Hstep as [db2 [calls2 [Hm [ins1 [Hi1 [Hi2 Hi3]]]]]].
    fold filtered. rewrite Hm.
    destruct (merge_new seen found filtered) as [seen' found'].
    specialize (IH db2 seen' found' calls2).
    destruct (discovery_loop _ _ _ _ _ _ db2 seen' found' calls2 queries)
      as [[db' calls'] res].
    destruct IH as [ins2 [Hj1 [Hj2 Hj3]]].
    exists (ins1 ++ ins2). rewrite Hj1, Hi1, app_assoc. split; [reflexivity|].
    rewrite Hi3 in Hj2. split; [apply Forall_app; split; assumption|].
    rewrite Hj3, Hi3. reflexivity.
Qed.

(** C10 *)
(** Claim C10: every row [job_discovery_node] inserts carries the remote tag
    [remote_filters[0]] when exactly one remote filter is given and the empty
    string otherwise, whatever the scraper returns; the rows present before
    the run stay (after the start-up duplicate cleanup) in front. *)
Theorem discovery_stamps_remote_filter (max_variables : nat) (search : SearchFn) (stored : list Row)
  (search_queries : list str) (profile_location : option str)
  (job_type_filters experience_level_filters remote_filters : list str) :
  let '(rows', _, _) :=
    job_discovery_node max_variables search stored search_queries profile_location
      job_type_filters experience_level_filters remote_filters in
  exists ins,
    rows' = (match search_queries with
             | [] => stored
             | _ => keep_first_url [] stored
             end) ++ ins
    /\ Forall (fun r => remote r = remote_value_of remote_filters) ins.
Proof.
  destruct search_queries as [|q qs].
  - exists []. rewrite app_nil_r. split; [reflexivity | constructor].
  - unfold job_discovery_node.
    match goal with
    | |- context [discovery_loop ?m ?a ?b ?c ?d ?e ?db ?f ?g ?h ?i] =>
        pose proof (discovery_loop_appends_stamped m a b c d e i db f g h) as Hl;
        destruct (discovery_loop m a b c d e db f g h i) as [[db' calls] res]
    end.
    destruct Hl as [ins [H1 [H2 _]]].
    exists ins. split; [exact H1 | exact H2].
Qed.

End NodeFacts.

(** ** In-run deduplication of the discovery node *)
Module MergeFacts.
Import Schema Storage Nodes StoreFacts.

Lemma first_per_url_seen_ext (s1 s2 : list str) (l : list JobListing) :
  (forall x, In x s1 <-> In x s2) -> first_per_url s1 l = first_per_url s2 l.
Proof.
  revert s1 s2; induction l as [|j l IH]; intros s1 s2 Hs; [reflexivity|].
  cbn. replace (str_in (job_url j) s1) with (str_in (job_url j) s2).
  2:{ apply Bool.eq_iff_eq_true. rewrite !str_in_iff. symmetry. apply Hs. }
  destruct (str_in (job_url j) s2); [apply IH; assumption|].
  f_equal. apply IH. intros x. cbn. rewrite Hs. reflexivity.
Qed.

Lemma first_per_url_app (s : list str) (l1 l2 : list JobListing) :
  first_per_url s (l1 ++ l2)
  = first_per_url s l1 ++ first_per_url (map job_url l1 ++ s) l2.
Proof.
  revert s; induction l1 as [|j l1 IH]; intros s; [reflexivity|].
  cbn [app first_per_url map]. destruct (str_in (job_url j) s) eqn:E.
  - rewrite IH. f_equal. apply first_per_url_seen_ext. intros x.
    cbn. rewrite !in_app_iff. apply str_in_iff in E.
    split; [tauto|]. intros [H|[H|H]]; auto. subst; auto.
  - cbn [app]. rewrite IH. f_equal. f_equal. apply first_per_url_seen_ext.
    intros x. cbn. rewrite !in_app_iff. cbn. tauto.
Qed.

Lemma first_per_url_urls (s : list str) (l : list JobListing) x :
  In x (map job_url (first_per_url s l)) <-> In x (map job_url l) /\ ~ In x s.
Proof.
  revert s; induction l as [|j l IH]; intros s; cbn; [tauto|].
  destruct (str_in (job_url j) s) eqn:E.
  - rewrite IH. apply str_in_iff in E. split; [tauto|].
    intros [[H|H] Hn]; [subst; contradiction | tauto].
  - apply str_in_false in E. cbn. rewrite IH. cbn.
    split.
    + intros [H|[H Hn]]; [subst; tauto | tauto].
    + intros [[H|H] Hn]; [left; exact H|].
      destruct (list_eq_dec ascii_dec (job_url j) x); [left; assumption|].
      right. split; [exact H|]. intros [H'|H']; contradiction.
Qed.

Lemma first_per_url_nodup (s : list str) (l : list JobListing) :
  NoDup (map job_url (first_per_url s l)).
Proof.
  revert s; induction l as [|j l IH]; intros s; cbn; [constructor|].
  destruct (str_in (job_url j) s); [apply IH|].
  cbn. constructor; [|apply IH].
  rewrite first_per_url_urls. cbn. tauto.
Qed.

Lemma merge_new_spec (seen : list str) (found l : list JobListing) :
  snd (merge_new seen found l) = found ++ first_per_url seen l
  /\ (forall x, In x (fst (merge_new seen found l))
                <-> In x seen \/ In x (map job_url l)).
Proof.
  revert seen found; induction l as [|j l IH]; intros seen found.
  - cbn. rewrite app_nil_r. split; [reflexivity | tauto].
  - cbn [merge_new first_per_url map]. destruct (str_in (job_url j) seen) eqn:E.
    + destruct (IH seen found) as [H1 H2]. split; [exact H1|].
      intros x. rewrite H2. apply str_in_iff in E. cbn.
      split; [tauto|]. intros [H|[H|H]]; auto. subst; auto.
    + destruct (IH (job_url j :: seen) (found ++ [j])) as [H1 H2].
      split; [rewrite H1, <- app_assoc; reflexivity|].
      intros x. rewrite H2. cbn. tauto.
Qed.

Lemma count_url_one (found : list JobListing) u :
  NoDup (map job_url found) -> In u (map job_url found) ->
  List.length (filter (fun j => str_eqb (job_url j) u) found) = 1.
Proof.
  induction found as [|j found IH]; intros Hnd Hin; [destruct Hin|].
  inversion Hnd as [|x l Hnotin Hnd']; subst. cbn.
  destruct (str_eqb (job_url j) u) eqn:E.
  - apply str_eqb_eq in E. subst. cbn. f_equal.
    clear IH Hin Hnd Hnd'. induction found as [|j' found IHf]; [reflexivity|].
    cbn in Hnotin |- *. destruct (str_eqb (job_url j') (job_url j)) eqn:E'.
    + apply str_eqb_eq in E'. exfalso. apply Hnotin. left. exact E'.
    + apply IHf. tauto.
  - apply IH; [assumption|]. destruct Hin as [H|H]; [|exact H].
    subst. rewrite str_eqb_refl in E. discriminate.
Qed.

Lemma batch_has_iff u b : batch_has u b = true <-> In u (map job_url b).
Proof.
  unfold batch_has. rewrite existsb_exists, in_map_iff.
  split; intros [j [H1 H2]]; exists j; [apply str_eqb_eq in H2|]; split; auto.
  apply str_eqb_eq; assumption.
Qed.

Lemma filter_none {A : Type} (f : A -> bool) (l : list A) :
  (forall x, In x l -> f x = false) -> filter f l = [].
Proof.
  induction l as [|x l IH]; intros H; [reflexivity|].
  cbn. rewrite (H x (or_introl eq_refl)). apply IH. intros y Hy. apply H. right. exact Hy.
Qed.

Lemma map_url_to_row (rm : str) (l : list JobListing) :
  map url (map (to_row rm) l) = map job_url l.
Proof. rewrite map_map. reflexivity. Qed.

Lemma keep_first_url_incl (seen : list str) (rs : list Row) :
  incl (keep_first_url seen rs) rs.
Proof.
  revert seen; induction rs as [|r rs IH]; intros seen; cbn; [easy|].
  destruct (str_in (url r) seen).
  - intros x Hx. right. apply (IH seen x Hx).
  - intros x [Hx|Hx]; [left; assumption | right; apply (IH _ x Hx)].
Qed.

(** Membership in the [filtered_jobs] of one query. *)
Lemma filtered_jobs_iff (rs : list Row) (jobs : list JobListing) j :
  In j (filter (fun j => str_in (job_url j)
          (filter (fun u => negb (str_in u (map url rs)))
             (map job_url (filter (fun j => match job_url j with
                                            | [] => false | _ => true end) jobs))))
          jobs)
  <-> In j jobs /\ job_url j <> [] /\ ~ In (job_url j) (map url rs).
Proof.
  rewrite filter_In, str_in_iff, filter_In, in_map_iff.
  rewrite negb_true_iff, str_in_false.
  split.
  - intros [Hj [[j' [Hu Hj']] Hn]]. apply filter_In in Hj' as [_ Hne].
    repeat split; auto. rewrite <- Hu. destruct (job_url j'); congruence.
  - intros [Hj [Hne Hn]]. repeat split; auto. exists j. split; [reflexivity|].
    apply filter_In. split; [assumption|]. destruct (job_url j); congruence.
Qed.

Section Loop.

Variable max_variables : nat.
Variable search : SearchFn.
Variables (location : str) (jt el rf : list str).
Variables (stored : list Row) (K : list (str * str)).
Hypothesis HK : key_consistent K.

Lemma discovery_loop_inv (queries : list str) :
  forall db seen found calls,
  run_inv stored K (rows (conn db)) seen found calls ->
  (forall q jobs, In q queries -> returned search location jt el rf q jobs -> incl (map job_key jobs) K) ->
  let '(db', calls', res) :=
    discovery_loop max_variables search location jt el rf db seen found calls queries in
  match res with
  | Ok found' =>
      exists seen', run_inv stored K (rows (conn db')) seen' found' calls'
        /\ (forall x, In x seen -> In x seen')
        /\ (forall q jobs j, In q queries -> returned search location jt el rf q jobs -> In j jobs ->
              job_url j <> [] ->
              In (job_url j) (map url stored) \/ In (job_url j) seen')
  | Raise _ => True
  end.
Proof.
  induction queries as [|q queries IH]; intros db seen found calls Hinv Hq.
  - exists seen. split; [exact Hinv|]. split; [tauto|]. intros ? ? ? [].
  - cbn [discovery_loop].
    destruct (search q _ _ _ _) as [jobs|e] eqn:Es; [|exact I].
    destruct jobs as [|j0 js].
    { specialize (IH db seen found calls Hinv (fun q' jobs H => Hq q' jobs (or_intror H))).
      destruct (discovery_loop _ _ _ _ _ _ db seen found calls queries)
        as [[db' calls'] res].
      destruct res as [found'|]; [|exact I].
      destruct IH as [seen' [Hi [Hmono Hsurf]]].
      exists seen'. split; [exact Hi|]. split; [exact Hmono|].
      intros q' jobs j [<-|Hq'] Hret Hj Hne; [|apply (Hsurf q' jobs); assumption].
      unfold returned in Hret. rewrite Es in Hret. injection Hret as <-. destruct Hj. }
    set (jobs := j0 :: js) in *.
    assert (Hret : returned search location jt el rf q jobs) by exact Es.
    set (urls := map job_url (filter (fun j => match job_url j with
                                               | [] => false | _ => true end) jobs)).
    destruct (get_new_jobs max_variables db urls) as [[db1 nu]|e] eqn:Eg; [|exact I].
    destruct (get_new_jobs_ok _ _ _ _ _ Eg) as [Hf [Hg1 _]].
    assert (F1 : forall j, In j (filter (fun j => str_in (job_url j) nu) jobs)
                           <-> In j jobs /\ job_url j <> []
                               /\ ~ In (job_url j) (map url (rows (conn db)))).
    { intros j. rewrite Hf. apply filtered_jobs_iff. }
    destruct Hinv as [Ia [Ib [Ic [Id [Ie If]]]]].
    remember (filter (fun j => str_in (job_url j) nu) jobs) as F eqn:EF.
    destruct F as [|f fs].
    + (* no new listing: nothing is persisted *)
      cbn [merge_new].
      assert (Hinv1 : run_inv stored K (rows (conn db1)) seen found calls).
      { rewrite Hg1. exact (conj Ia (conj Ib (conj Ic (conj Id (conj Ie If))))). }
      specialize (IH db1 seen found calls Hinv1 (fun q' jobs H => Hq q' jobs (or_intror H))).
      destruct (discovery_loop _ _ _ _ _ _ db1 seen found calls queries)
        as [[db' calls'] res].
      destruct res as [found'|]; [|exact I].
      destruct IH as [seen' [Hi [Hmono Hsurf]]].
      exists seen'. split; [exact Hi|]. split; [exact Hmono|].
      intros q' jobs' j [<-|Hq'] Hret' Hj Hne; [|apply (Hsurf q' jobs'); assumption].
      unfold returned in Hret'. rewrite Es in Hret'. injection Hret' as Ej.
      subst jobs'.
      destruct (in_dec (list_eq_dec ascii_dec) (job_url j) (map url (rows (conn db))))
        as [Hin|Hout].
      * destruct (Ic _ Hin) as [H|H]; [left; exact H | right; apply Hmono, H].
      * exfalso. apply (proj2 (F1 j)). auto.
    + (* the new listings are persisted and merged *)
      cbv beta iota.
      set (F := f :: fs) in *.
      assert (HFj : forall j, In j F -> In j jobs) by (intros j Hj; apply F1 in Hj; tauto).
      assert (HkF : key_consistent (map row_key (rows (conn db1)) ++ map job_key F)).
      { refine (key_consistent_incl _ _ _ HK). apply incl_app; [rewrite Hg1; exact If|].
        intros k Hk. apply (Hq q jobs (or_introl eq_refl) Hret).
        apply in_map_iff in Hk as [j [<- Hj]]. apply in_map, HFj, Hj. }
      destruct (add_jobs_spec db1 F HkF) as [Hr2 _].
      pose proof (add_jobs_all_present db1 F HkF) as Hpres.
      pose proof (add_jobs_keys db1 F HkF) as Hkeys2.
      rewrite Hg1 in Hr2, Hkeys2.
      destruct (merge_new_spec seen found F) as [Hm1 Hm2].
      destruct (merge_new seen found F) as [seen2 found2]. cbn [fst snd] in Hm1, Hm2.
      assert (Hinv2 : run_inv stored K (rows (conn (fst (add_jobs db1 F))))
                        seen2 found2 (calls ++ [F])).
      { unfold run_inv. rewrite concat_app. cbn [List.concat]. rewrite app_nil_r.
        split; [|split; [|split; [|split; [|split]]]].
        - rewrite Hm1, Ia, first_per_url_app. f_equal.
          apply first_per_url_seen_ext. intros x. rewrite app_nil_r. pose proof (Ib x). tauto.
        - intros x. rewrite Hm2, map_app, in_app_iff. pose proof (Ib x). tauto.
        - intros u Hu. rewrite Hr2, map_app, in_app_iff, map_url_to_row in Hu.
          destruct Hu as [Hu|Hu].
          + destruct (Ic u Hu) as [H|H]; [left; exact H | right; apply Hm2; left; exact H].
          + right. apply Hm2. right. apply first_per_url_urls in Hu. tauto.
        - intros b j Hb Hj. apply in_app_or in Hb as [Hb|[<-|[]]].
          + rewrite Hr2, map_app. apply in_or_app. left. apply (Id b j Hb Hj).
          + apply Hpres, Hj.
        - intros u. rewrite filter_app, length_app. cbn [filter].
          destruct (batch_has u F) eqn:Eb.
          + rewrite (filter_none (batch_has u) calls).
            * cbn. lia.
            * intros b Hb. apply not_true_iff_false. intros Hbu.
              apply batch_has_iff, in_map_iff in Hbu as [j' [Hu' Hj']].
              apply batch_has_iff, in_map_iff in Eb as [j [Hu Hj]].
              apply F1 in Hj as [_ [_ Hn]]. apply Hn. rewrite Hu, <- Hu'.
              apply (Id b j' Hb Hj').
          + cbn. rewrite Nat.add_0_r. apply Ie.
        - refine (incl_tran Hkeys2 _). apply incl_app; [exact If|].
          intros k Hk. apply (Hq q jobs (or_introl eq_refl) Hret).
          apply in_map_iff in Hk as [j [<- Hj]]. apply in_map, HFj, Hj. }
      specialize (IH (fst (add_jobs db1 F)) seen2 found2 (calls ++ [F]) Hinv2
                     (fun q' jobs H => Hq q' jobs (or_intror H))).
      destruct (discovery_loop _ _ _ _ _ _ (fst (add_jobs db1 F)) seen2 found2 (calls ++ [F])
                  queries) as [[db' calls'] res].
      destruct res as [found'|]; [|exact I].
      destruct IH as [seen' [Hi [Hmono Hsurf]]].
      exists seen'. split; [exact Hi|].
      split; [intros x Hx; apply Hmono, Hm2; left; exact Hx|].
      intros q' jobs' j [<-|Hq'] Hret' Hj Hne; [|apply (Hsurf q' jobs'); assumption].
      unfold returned in Hret'. rewrite Es in Hret'. injection Hret' as Ej.
      subst jobs'.
      destruct (in_dec (list_eq_dec ascii_dec) (job_url j) (map url (rows (conn db))))
        as [Hin|Hout].
      * destruct (Ic _ Hin) as [H|H]; [left; exact H | right; apply Hmono, Hm2; left; exact H].
      * right. apply Hmono, Hm2. right. apply in_map. apply (proj2 (F1 j)). auto.
Qed.

End Loop.

Lemma job_discovery_node_cons m (search : SearchFn) (stored : list Row) q qs ploc jt el rf :
  job_discovery_node m search stored (q :: qs) ploc jt el rf
  = let '(db', calls, res) :=
      discovery_loop m search (node_location ploc) jt el rf
        (JobDatabase_init (remote_value_of rf) stored) [] [] [] (q :: qs) in
    (rows (conn db'), calls, res).
Proof. reflexivity. Qed.

Lemma run_inv_init (stored : list Row) (K : list (str * str)) rm :
  incl (map row_key stored) K ->
  run_inv stored K (rows (conn (JobDatabase_init rm stored))) [] [] [].
Proof.
  intros HsK. change (rows (conn (JobDatabase_init rm stored))) with (keep_first_url [] stored).
  unfold run_inv. split; [reflexivity|]. split; [cbn; tauto|].
  split; [|split; [intros ? ? []|split; [cbn; lia|]]].
  - intros u Hu. left. apply in_map_iff in Hu as [r [<- Hr]].
    apply in_map, (keep_first_url_incl [] stored r Hr).
  - intros k Hk. apply HsK. apply in_map_iff in Hk as [r [<- Hr]].
    apply in_map, (keep_first_url_incl [] stored r Hr).
Qed.

Lemma returned_scraped search location jt el rf queries q jobs j :
  In q queries -> returned search location jt el rf q jobs -> In j jobs ->
  In j (scraped search location jt el rf queries).
Proof.
  intros Hq Hr Hj. unfold scraped. apply in_flat_map. exists q. split; [exact Hq|].
  unfold returned in Hr. rewrite Hr. exact Hj.
Qed.

(** C5: in every run of [job_discovery_node] that returns, the merged
    output [found_jobs] is the first listing of each URL over the [add_jobs]
    batches in call order (first occurrence wins, stable order), it holds
    at most one listing per URL, no URL is in more than one [add_jobs]
    batch, and every URL some query surfaced that was not already stored is
    in the output exactly once.  This holds when ids determine URLs over
    the stored rows and the scraped listings. *)
Theorem discovery_merge_first_per_url (max_variables : nat) (search : SearchFn) (stored : list Row)
  (queries : list str) (ploc : option str) (jt el rf : list str)
  (rows' : list Row) (calls : list (list JobListing)) (found : list JobListing) :
  key_consistent (map row_key stored
                  ++ map job_key (scraped search (node_location ploc) jt el rf queries)) ->
  job_discovery_node max_variables search stored queries ploc jt el rf
  = (rows', calls, Ok found) ->
  found = first_per_url [] (List.concat calls)
  /\ NoDup (map job_url found)
  /\ (forall u, List.length (filter (batch_has u) calls) <= 1)
  /\ (forall u, In u (map job_url (scraped search (node_location ploc) jt el rf queries)) ->
        u <> [] -> ~ In u (map url stored) ->
        List.length (filter (fun j => str_eqb (job_url j) u) found) = 1).
Proof.
  intros HK Hrun.
  destruct queries as [|q0 qs].
  { cbn in Hrun. injection Hrun as <- <- <-.
    split; [reflexivity|]. split; [constructor|]. split; [cbn; lia|].
    intros u []. }
  rewrite job_discovery_node_cons in Hrun.
  set (K := map row_key stored
            ++ map job_key (scraped search (node_location ploc) jt el rf (q0 :: qs))) in HK.
  pose proof (discovery_loop_inv max_variables search (node_location ploc) jt el rf stored K HK (q0 :: qs)
                (JobDatabase_init (remote_value_of rf) stored) [] [] []
                (run_inv_init stored K _ (fun k H => in_or_app _ _ _ (or_introl H))))
    as L.
  assert (HqK : forall q jobs, In q (q0 :: qs) ->
            returned search (node_location ploc) jt el rf q jobs -> incl (map job_key jobs) K).
  { intros q jobs Hq Hr k Hk. apply in_or_app. right.
    apply in_map_iff in Hk as [j [<- Hj]].
    apply in_map, (returned_scraped _ _ _ _ _ _ q jobs j Hq Hr Hj). }
  specialize (L HqK).
  destruct (discovery_loop _ _ _ _ _ _ (JobDatabase_init (remote_value_of rf) stored) [] [] []
              (q0 :: qs)) as [[db' calls'] res].
  injection Hrun as <- <- ->.
  destruct L as [seen' [[Ia [Ib [_ [_ [Ie _]]]]] [_ Hsurf]]].
  split; [exact Ia|].
  assert (Hnd : NoDup (map job_url found)) by (rewrite Ia; apply first_per_url_nodup).
  split; [exact Hnd|]. split; [exact Ie|].
  intros u Hu Hne Hns.
  apply in_map_iff in Hu as [j [<- Hj]].
  unfold scraped in Hj. apply in_flat_map in Hj as [q [Hq Hj]].
  destruct (search q _ _ _ _) as [jobs|e] eqn:Esq; [|destruct Hj].
  destruct (Hsurf q jobs j Hq Esq Hj Hne) as [H|H]; [contradiction|].
  apply count_url_one; [exact Hnd|].
  rewrite Ia. apply first_per_url_urls. split; [apply Ib, H | intros []].
Qed.

End MergeFacts.


(** * The scraper's failure behaviour *)
Module ScraperFacts.
Import Schema Scraper Examples.

Section Cards.

Variable check_bracketed_host : str -> bool.
Variable md5_hexdigest : str -> str.
Variables date_fromisoformat datetime_fromisoformat_date : str -> option date.

Let parse := parse_card check_bracketed_host md5_hexdigest date_fromisoformat
               datetime_fromisoformat_date.

(** Cards parsed before the failing one are kept, in order. *)
Lemma card_loop_error_after (limit : Z) (t : bool) (c : Card) (post : list Card) :
  forall pre results jobs,
  map parse pre = map Ok jobs ->
  (Z.of_nat (List.length results + List.length pre) < limit)%Z ->
  parse c = Raise (PlaywrightError t) ->
  card_loop check_bracketed_host md5_hexdigest date_fromisoformat
    datetime_fromisoformat_date limit results (pre ++ c :: post) = Ok (results ++ jobs).
Proof.
  induction pre as [|c' pre IH]; intros results jobs Hm Hl Hc.
  - destruct jobs; [|discriminate]. cbn.
    replace (limit <=? Z.of_nat (List.length results))%Z with false
      by (symmetry; apply Z.leb_gt; lia).
    fold parse. rewrite Hc, app_nil_r. reflexivity.
  - destruct jobs as [|j jobs]; [discriminate|]. injection Hm as Hc' Hm.
    cbn. replace (limit <=? Z.of_nat (List.length results))%Z with false
      by (symmetry; apply Z.leb_gt; cbn in Hl; lia).
    fold parse. rewrite Hc'. rewrite (IH (results ++ [j]) jobs Hm).
    + rewrite <- app_assoc. reflexivity.
    + rewrite length_app. cbn in Hl |- *. lia.
    + exact Hc.
Qed.

End Cards.

(** C3: a results page whose first card is complete and whose second card
    has no [a.base-card__full-link] makes [search_jobs], with its default
    [limit] of 100, raise [AttributeError] ([None.encode]): the linkless card
    is not skipped and the listing of the first card is lost. *)
Theorem search_jobs_linkless_card_raises (chk : str -> bool) (md5 : str -> str)
  (d1 d2 : str -> option date) (query location : str)
  (jt el rm : option (list str)) (wait_ms : Z) :
  search_jobs chk md5 d1 d2 (page_with [good_card; linkless_card])
    query location jt el rm 100 wait_ms = Raise AttributeError.
Proof. reflexivity. Qed.

(** C1: a URL whose netloc has an unclosed ['['] is not returned unchanged:
    [urlsplit] raises [ValueError] and [_canonicalize_job_url] lets it
    through.  Nothing on the way catches it: a results page whose second
    card links to such a URL makes [search_jobs] (default [limit] 100)
    raise [ValueError], losing the listing of the first card, and
    [job_discovery_node] driving that scraper raises it too. *)
Theorem canonicalize_malformed_url_raises (chk : str -> bool) (md5 : str -> str)
  (d1 d2 : str -> option date) (query location : str)
  (jt el rm : option (list str)) (wait_ms : Z) (max_variables : nat)
  (stored : list Storage.Row) (queries : list str) (ploc : option str)
  (job_type_filters experience_level_filters remote_filters : list str) :
  canonicalize_job_url chk (s "//[x/p") = Raise ValueError
  /\ canonicalize_job_url chk (s "https://[x/jobs/view/1") = Raise ValueError
  /\ search_jobs chk md5 d1 d2 (page_with [good_card; ExtraExamples.bracket_card])
       query location jt el rm 100 wait_ms = Raise ValueError
  /\ snd (Nodes.job_discovery_node max_variables
            (fun q l a b c => search_jobs chk md5 d1 d2
                                (page_with [good_card; ExtraExamples.bracket_card])
                                q l a b c 100 wait_ms)
            stored (query :: queries) ploc
            job_type_filters experience_level_filters remote_filters)
     = Raise ValueError.
Proof. repeat split; reflexivity. Qed.

(** C4, counterexample: a [PlaywrightError] raised while reading the second
    card ends the call with the listing of the first card, not with the
    empty list. *)
Lemma search_jobs_partial_results :
  search_jobs accept_host hash_stub no_date no_date (page_with [good_card; broken_card])
    (s "ML Engineer") (s "Berlin") None None None 100 20000
  = Ok [good_job].
Proof. vm_compute. reflexivity. Qed.

(** C4, amended: once the browser is up, a [PlaywrightError] (timeout or
    transport error) from the navigation, or from waiting for and collecting
    the result cards, makes [search_jobs] return the empty list without
    raising; a [PlaywrightError] while reading a card makes it return,
    without raising, the listings of the cards read before it. *)
Theorem search_jobs_playwright_errors (chk : str -> bool) (md5 : str -> str)
  (d1 d2 : str -> option date) (page : Page) (query location : str)
  (jt el rm : option (list str)) (limit wait_ms : Z) :
  browser_launch page = Ok tt ->
  let url := search_url query location jt el rm in
  let run := search_jobs chk md5 d1 d2 page query location jt el rm limit wait_ms in
  (forall t, goto page url = Raise (PlaywrightError t) -> run = Ok [])
  /\ (forall t, goto page url = Ok tt -> find_cards page wait_ms = Raise (PlaywrightError t) ->
        run = Ok [])
  /\ (forall t pre c post jobs, goto page url = Ok tt ->
        find_cards page wait_ms = Ok (pre ++ c :: post) ->
        map (parse_card chk md5 d1 d2) pre = map Ok jobs ->
        (Z.of_nat (List.length pre) < limit)%Z ->
        parse_card chk md5 d1 d2 c = Raise (PlaywrightError t) ->
        run = Ok jobs).
Proof.
  intros Hb url run. subst url run. unfold search_jobs. rewrite Hb. cbn [bind].
  split; [|split].
  - intros t Hg. rewrite Hg. reflexivity.
  - intros t Hg Hf. rewrite Hg, Hf. reflexivity.
  - intros t pre c post jobs Hg Hf Hm Hl Hc. rewrite Hg, Hf.
    apply (card_loop_error_after chk md5 d1 d2 limit t c post pre [] jobs Hm); assumption.
Qed.

End ScraperFacts.


(** * Canonical job URLs *)
Module UrlFacts.
Import Url Props.

Lemma break_at_spec p l : fst (break_at p l) ++ snd (break_at p l) = l.
Proof.
  induction l as [|c l IH]; cbn; [reflexivity|]. destruct (p c); [reflexivity|].
  destruct (break_at p l) as [a b]. cbn in *. f_equal. exact IH.
Qed.

Lemma break_at_fst p l c : In c (fst (break_at p l)) -> p c = false.
Proof.
  induction l as [|d l IH]; cbn; [tauto|]. destruct (p d) eqn:E; [cbn; tauto|].
  destruct (break_at p l) as [a b]; cbn in *. intros [<-|H]; auto.
Qed.

Lemma break_at_snd_incl p l : incl (snd (break_at p l)) l.
Proof.
  intros x Hx. rewrite <- (break_at_spec p l). apply in_or_app. right. exact Hx.
Qed.

Lemma break_at_none p w y : (forall c, In c w -> p c = false) ->
  break_at p (w ++ y) = (w ++ fst (break_at p y), snd (break_at p y)).
Proof.
  induction w as [|c w IH]; intros H; cbn; [destruct (break_at p y); reflexivity|].
  rewrite (H c (or_introl eq_refl)).
  rewrite IH by (intros d Hd; apply H; right; exact Hd). reflexivity.
Qed.

Lemma break_at_stop p w y : (y = [] \/ exists c r, y = c :: r /\ p c = true) ->
  break_at p (w ++ y) = (fst (break_at p w), snd (break_at p w) ++ y).
Proof.
  intros Hy. induction w as [|c w IH]; cbn.
  - destruct Hy as [->|[c [r [-> Hc]]]]; cbn; [reflexivity|]. rewrite Hc. reflexivity.
  - destruct (p c); [reflexivity|]. rewrite IH. destruct (break_at p w); reflexivity.
Qed.

Lemma break_at_found p w y : snd (break_at p w) <> [] ->
  break_at p (w ++ y) = (fst (break_at p w), snd (break_at p w) ++ y).
Proof.
  induction w as [|c w IH]; cbn; [tauto|].
  destruct (p c); [reflexivity|]. destruct (break_at p w) as [a b]; cbn in *.
  intros H. rewrite IH by exact H. reflexivity.
Qed.

Lemma lstrip_app p w y : (y = [] \/ exists c r, y = c :: r /\ p c = false) ->
  lstrip_by p (w ++ y) = lstrip_by p w ++ y.
Proof.
  intros Hy; induction w as [|c w IH]; cbn.
  - destruct Hy as [->|[c [r [-> Hc]]]]; cbn; [reflexivity|]. rewrite Hc; reflexivity.
  - destruct (p c); [exact IH|reflexivity].
Qed.

Lemma lstrip_incl p l : incl (lstrip_by p l) l.
Proof.
  induction l as [|c l IH]; cbn; [apply incl_refl|].
  destruct (p c); [apply incl_tl, IH|apply incl_refl].
Qed.

Lemma nqf_incl a b : incl a b -> no_query_fragment b -> no_query_fragment a.
Proof. intros Hi [H1 H2]. split; intros H; [apply H1|apply H2]; apply Hi, H. Qed.

Lemma qf_cons y : query_or_fragment y ->
  y = [] \/ exists c r, y = c :: r /\ (c = "?"%char \/ c = "#"%char).
Proof. exact (fun H => H). Qed.

Lemma split_scheme_app w y : query_or_fragment y ->
  split_scheme (w ++ y) = (fst (split_scheme w), snd (split_scheme w) ++ y).
Proof.
  intros [->|[c [r [-> Hc]]]].
  { rewrite app_nil_r. destruct (split_scheme w); cbn; rewrite app_nil_r; reflexivity. }
  unfold split_scheme.
  destruct (break_at (ascii_eqb ":"%char) w) as [a b] eqn:Eb.
  destruct b as [|x after].
  - assert (Ew : a = w) by (rewrite <- (break_at_spec (ascii_eqb ":"%char) w), Eb; cbn; symmetry; apply app_nil_r).
    subst a.
    rewrite break_at_none
      by (intros d Hd; apply (break_at_fst (ascii_eqb ":"%char) w d); rewrite Eb; exact Hd).
    assert (Hc' : ascii_eqb ":"%char c = false /\ is_scheme_char c = false)
      by (destruct Hc as [->| ->]; split; reflexivity).
    cbn [break_at]. rewrite (proj1 Hc').
    destruct (break_at _ r) as [a' b']. cbn [fst snd].
    destruct b' as [|x' after']; [destruct (w ++ c :: a'); destruct w; reflexivity|].
    destruct (w ++ c :: a') as [|c0 before] eqn:Ew; [destruct w; discriminate|].
    replace (forallb is_scheme_char (c0 :: before)) with false.
    + rewrite andb_false_r. destruct w; reflexivity.
    + rewrite <- Ew, forallb_app. cbn [forallb]. rewrite (proj2 Hc').
      rewrite !andb_false_r. reflexivity.
  - rewrite break_at_found by (rewrite Eb; discriminate).
    rewrite Eb. cbn [fst snd app].
    destruct a as [|c0 before]; [reflexivity|].
    destruct (is_alpha c0 && forallb is_scheme_char (c0 :: before)); reflexivity.
Qed.

Lemma split_netloc_app r y : query_or_fragment y ->
  split_netloc (r ++ y) = (fst (split_netloc r), snd (split_netloc r) ++ y).
Proof.
  intros Hy. unfold split_netloc.
  destruct r as [|x [|z r']].
  - cbn [app]. destruct Hy as [->|[c [t [-> [->| ->]]]]]; reflexivity.
  - destruct Hy as [->|[c [t [-> [->| ->]]]]];
      cbn [app starts_with s list_ascii_of_string]; destruct (ascii_eqb "/" x); reflexivity.
  - cbn [starts_with s list_ascii_of_string app].
    destruct (ascii_eqb "/" x && (ascii_eqb "/" z && true)); [|reflexivity].
    cbn [skipn]. apply break_at_stop.
    destruct Hy as [->|[c [t [-> Hc]]]]; [left; reflexivity|].
    right. exists c, t. split; [reflexivity|]. destruct Hc as [->| ->]; reflexivity.
Qed.

Lemma split_off_app c w y : ~ In c w ->
  split_off c (w ++ y) = (w ++ fst (split_off c y), snd (split_off c y)).
Proof.
  intros Hw. unfold split_off. rewrite break_at_none.
  - destruct (break_at (ascii_eqb c) y) as [a [|x b]]; reflexivity.
  - intros d Hd. apply not_true_iff_false. intros E.
    apply Ascii.eqb_eq in E. subst d. contradiction.
Qed.

Lemma split_off_none c w : ~ In c w -> split_off c w = (w, []).
Proof.
  intros Hw. rewrite <- (app_nil_r w) at 1. rewrite split_off_app by exact Hw.
  rewrite app_nil_r. reflexivity.
Qed.

Lemma split_off_fst_no c l a b : split_off c l = (a, b) -> ~ In c a.
Proof.
  unfold split_off. pose proof (break_at_spec (ascii_eqb c) l) as Hs.
  pose proof (break_at_fst (ascii_eqb c) l c) as Hf.
  destruct (break_at (ascii_eqb c) l) as [a' [|x b']]; intros H; injection H as <- <-;
    cbn in Hs, Hf; intros Hc; [rewrite app_nil_r in Hs; subst l|];
    specialize (Hf Hc); rewrite Ascii.eqb_refl in Hf; discriminate.
Qed.

Lemma split_off_fst_incl c l a b : split_off c l = (a, b) -> incl a l.
Proof.
  unfold split_off. pose proof (break_at_spec (ascii_eqb c) l) as Hs.
  destruct (break_at (ascii_eqb c) l) as [a' [|x b']]; intros H; injection H as <- <-;
    [apply incl_refl|]. cbn in Hs. rewrite <- Hs. apply incl_appl, incl_refl.
Qed.

Lemma split_scheme_snd_incl w : incl (snd (split_scheme w)) w.
Proof.
  unfold split_scheme. pose proof (break_at_snd_incl (ascii_eqb ":"%char) w) as Hi.
  destruct (break_at (ascii_eqb ":"%char) w) as [[|c0 before] [|x after]];
    try apply incl_refl.
  destruct (is_alpha c0 && forallb is_scheme_char (c0 :: before)); [|apply incl_refl].
  cbn in *. intros d Hd. apply Hi. right. exact Hd.
Qed.

Lemma skipn_incl {A} n (l : list A) : incl (skipn n l) l.
Proof.
  intros x Hx. rewrite <- (firstn_skipn n l). apply in_or_app. right. exact Hx.
Qed.

Lemma split_netloc_snd_incl r : incl (snd (split_netloc r)) r.
Proof.
  unfold split_netloc. destruct (starts_with (s "//") r); [|apply incl_refl].
  eapply incl_tran; [apply break_at_snd_incl|apply skipn_incl].
Qed.

Lemma qf_filter y : query_or_fragment y ->
  query_or_fragment (filter (fun c => negb (is_unsafe c)) y).
Proof.
  intros [->|[c [r [-> Hc]]]]; [left; reflexivity|].
  right. destruct Hc as [->| ->]; cbn; eexists; eexists; split; try reflexivity; auto.
Qed.

Lemma qf_tail_empty y : query_or_fragment y ->
  fst (split_off "?"%char (fst (split_off "#"%char y))) = [].
Proof.
  intros [->|[c [r [-> [->| ->]]]]]; [reflexivity| |reflexivity].
  unfold split_off at 2. cbn [break_at]. cbn [ascii_eqb Ascii.eqb].
  destruct (break_at _ r) as [a [|x b]]; reflexivity.
Qed.


Lemma urlsplit_query_fragment chk p y :
  no_query_fragment p -> query_or_fragment y ->
  outcome_map (fun r => (scheme r, netloc r, path r)) (urlsplit chk (p ++ y)) = outcome_map (fun r => (scheme r, netloc r, path r)) (urlsplit chk p).
Proof.
  intros Hp Hy. unfold urlsplit. cbv zeta.
  rewrite (lstrip_app _ p y)
    by (destruct Hy as [->|[c [r [-> Hc]]]]; [left; reflexivity|];
        right; exists c, r; split; [reflexivity|]; destruct Hc as [->| ->]; reflexivity).
  rewrite filter_app.
  assert (Hw : no_query_fragment (filter (fun c => negb (is_unsafe c))
                                    (lstrip_by is_c0_or_space p))).
  { refine (nqf_incl _ _ _ Hp). intros x Hx. apply filter_In in Hx as [Hx _].
    apply (lstrip_incl _ _ _ Hx). }
  pose proof (qf_filter y Hy) as Hy2.
  remember (filter (fun c => negb (is_unsafe c)) (lstrip_by is_c0_or_space p)) as w eqn:Ew.
  remember (filter (fun c => negb (is_unsafe c)) y) as y2 eqn:Ey2.
  clear Ew Ey2 Hy Hp.
  rewrite (split_scheme_app w y2 Hy2).
  pose proof (nqf_incl _ _ (split_scheme_snd_incl w) Hw) as Hr.
  destruct (split_scheme w) as [sch r]. cbn [fst snd] in *.
  rewrite (split_netloc_app r y2 Hy2).
  pose proof (nqf_incl _ _ (split_netloc_snd_incl r) Hr) as [Hq4 Hh4].
  destruct (split_netloc r) as [net r4]. cbn [fst snd] in *.
  destruct (check_netloc_brackets chk net); [|reflexivity]. cbn [bind].
  rewrite (split_off_app _ r4 y2 Hh4), (split_off_none _ r4 Hh4).
  rewrite (split_off_app _ r4 _ Hq4), (split_off_none _ r4 Hq4).
  rewrite (qf_tail_empty y2 Hy2), app_nil_r. reflexivity.
Qed.

Lemma lower_scheme_nqf l : forallb is_scheme_char l = true -> no_query_fragment (lower l).
Proof.
  intros Hl.
  assert (H : forall c, c = "?"%char \/ c = "#"%char -> ~ In c (lower l)).
  { intros c Hc Hin. unfold lower in Hin. apply in_map_iff in Hin as [d [Hd Hin]].
    rewrite forallb_forall in Hl. specialize (Hl d Hin).
    unfold lower_char in Hd.
    destruct ((65 <=? nat_of_ascii d) && (nat_of_ascii d <=? 90)) eqn:E.
    - apply andb_true_iff in E as [E1 E2]. apply Nat.leb_le in E1, E2.
      apply (f_equal nat_of_ascii) in Hd.
      rewrite nat_ascii_embedding in Hd by lia.
      destruct Hc as [->| ->]; cbn in Hd; lia.
    - subst d. destruct Hc as [->| ->]; discriminate Hl. }
  split; apply H; auto.
Qed.

Lemma split_scheme_fst_nqf w : no_query_fragment (fst (split_scheme w)).
Proof.
  unfold split_scheme.
  destruct (break_at (ascii_eqb ":"%char) w) as [[|c0 before] [|x after]];
    try (split; intros []).
  destruct (is_alpha c0 && forallb is_scheme_char (c0 :: before)) eqn:E;
    [|split; intros []].
  apply andb_true_iff in E as [_ E]. apply lower_scheme_nqf, E.
Qed.

Lemma split_netloc_fst_nqf r : no_query_fragment (fst (split_netloc r)).
Proof.
  unfold split_netloc. destruct (starts_with (s "//") r); [|split; intros []].
  split; intros H; apply break_at_fst in H; discriminate H.
Qed.

Lemma urlsplit_parts_nqf chk u parts : urlsplit chk u = Ok parts ->
  no_query_fragment (scheme parts) /\ no_query_fragment (netloc parts)
  /\ no_query_fragment (path parts).
Proof.
  unfold urlsplit. cbv zeta.
  pose proof (split_scheme_fst_nqf
    (filter (fun c => negb (is_unsafe c)) (lstrip_by is_c0_or_space u))) as H1.
  destruct (split_scheme _) as [sch url3]. cbn [fst] in H1.
  pose proof (split_netloc_fst_nqf url3) as H2.
  destruct (split_netloc url3) as [net url4]. cbn [fst] in H2.
  destruct (check_netloc_brackets chk net); [|discriminate]. cbn [bind].
  destruct (split_off "#"%char url4) as [url5 frag] eqn:E3.
  destruct (split_off "?"%char url5) as [pth qry] eqn:E4.
  intros H; injection H as <-. cbn [scheme netloc path].
  split; [exact H1|]. split; [exact H2|]. split.
  - apply (split_off_fst_no _ _ _ _ E4).
  - intros Hh. apply (split_off_fst_no _ _ _ _ E3).
    apply (split_off_fst_incl _ _ _ _ E4 _ Hh).
Qed.

Lemma canonicalize_absolute chk u parts :
  urlsplit chk u = Ok parts -> scheme parts <> [] -> netloc parts <> [] ->
  canonicalize_job_url chk u = Ok (scheme parts ++ s "://" ++ netloc parts ++ path parts).
Proof.
  intros H Hs Hn. unfold canonicalize_job_url. rewrite H. cbn [bind].
  destruct (scheme parts); [congruence|]. destruct (netloc parts); [congruence|].
  reflexivity.
Qed.

(** Relative URLs that differ only in their query
    string are returned unchanged, so their canonical forms differ; and a
    netloc with an unmatched ['['] makes [urlsplit], hence the
    canonicalization, raise [ValueError] instead of returning the input. *)
Lemma canonicalize_relative_query_kept :
  canonicalize_job_url Examples.accept_host (s "/jobs/view/1?a=1") = Ok (s "/jobs/view/1?a=1")
  /\ canonicalize_job_url Examples.accept_host (s "/jobs/view/1?a=2") = Ok (s "/jobs/view/1?a=2")
  /\ s "/jobs/view/1?a=1" <> s "/jobs/view/1?a=2"
  /\ canonicalize_job_url Examples.accept_host (s "//[x/p") = Raise ValueError.
Proof. vm_compute. repeat split; discriminate. Qed.

(** [_canonicalize_job_url] raises what [urlsplit] raises;
    otherwise it returns its input unchanged when the scheme or the netloc
    is empty, and [scheme://netloc] followed by the path (the scheme
    lower-cased), which holds no ['?'] and no ['#'], when both are present.
    Two inputs [p ++ x1] and [p ++ x2], where [p] holds no ['?'] and no
    ['#'] and each [xi] is empty or starts with ['?'] or ['#'], have the
    same canonical form and the same id when [p ++ x1] is absolute. *)
Theorem canonicalize_job_url_spec (chk : str -> bool) :
  (forall u e, urlsplit chk u = Raise e -> canonicalize_job_url chk u = Raise e)
  /\ (forall u parts, urlsplit chk u = Ok parts -> scheme parts = [] \/ netloc parts = [] ->
        canonicalize_job_url chk u = Ok u)
  /\ (forall u parts, urlsplit chk u = Ok parts -> scheme parts <> [] -> netloc parts <> [] ->
        canonicalize_job_url chk u = Ok (scheme parts ++ s "://" ++ netloc parts ++ path parts)
        /\ no_query_fragment (scheme parts ++ s "://" ++ netloc parts ++ path parts))
  /\ (forall p x1 x2, no_query_fragment p -> query_or_fragment x1 -> query_or_fragment x2 ->
        absolute chk (p ++ x1) ->
        canonicalize_job_url chk (p ++ x1) = canonicalize_job_url chk (p ++ x2)
        /\ (forall md5 : str -> str,
              outcome_map md5 (canonicalize_job_url chk (p ++ x1))
              = outcome_map md5 (canonicalize_job_url chk (p ++ x2)))).
Proof.
  split; [|split; [|split]].
  - intros u e H. unfold canonicalize_job_url. rewrite H. reflexivity.
  - intros u parts H Hsn. unfold canonicalize_job_url. rewrite H. cbn [bind].
    destruct Hsn as [-> | ->]; [reflexivity|]. destruct (scheme parts); reflexivity.
  - intros u parts H Hs Hn. split; [apply canonicalize_absolute; assumption|].
    destruct (urlsplit_parts_nqf chk u parts H) as [[S1 S2] [[N1 N2] [P1 P2]]].
    split; intros Hin; repeat (apply in_app_or in Hin as [Hin|Hin]); try tauto;
      cbn in Hin; repeat (destruct Hin as [Hin|Hin]; [discriminate Hin|]); exact Hin.
  - intros p x1 x2 Hp H1 H2 Ha.
    unfold absolute in Ha.
    pose proof (urlsplit_query_fragment chk p x1 Hp H1) as E1.
    pose proof (urlsplit_query_fragment chk p x2 Hp H2) as E2.
    destruct (urlsplit chk (p ++ x1)) as [r1|] eqn:U1; [|contradiction].
    destruct (urlsplit chk p) as [r0|]; [|discriminate].
    destruct (urlsplit chk (p ++ x2)) as [r2|] eqn:U2; [|discriminate].
    cbn in E1, E2. injection E1 as Es1 En1 Ep1. injection E2 as Es2 En2 Ep2.
    destruct Ha as [Hs Hn].
    rewrite (canonicalize_absolute chk _ r1 U1 Hs Hn).
    rewrite (canonicalize_absolute chk _ r2 U2) by congruence.
    rewrite Es1, En1, Ep1, Es2, En2, Ep2. split; reflexivity.
Qed.

End UrlFacts.


(** * Instances of the hypotheses of the theorems above *)
Module Witnesses.
Import Schema Storage Scraper Nodes Examples Props.

Lemma canonicalize_job_url_spec_witness :
  canonicalize_job_url accept_host (s "https://de.linkedin.com/jobs/view/1" ++ s "?refId=x")
  = canonicalize_job_url accept_host (s "https://de.linkedin.com/jobs/view/1" ++ s "#top").
Proof.
  refine (proj1 (proj2 (proj2 (proj2 (UrlFacts.canonicalize_job_url_spec accept_host)))
                  (s "https://de.linkedin.com/jobs/view/1") (s "?refId=x") (s "#top")
                  _ _ _ _)).
  - split; vm_compute; intros H; repeat (destruct H as [H|H]; [discriminate H|]); exact H.
  - right. exists "?"%char, (s "refId=x"). split; [reflexivity|left; reflexivity].
  - right. exists "#"%char, (s "top"). split; [reflexivity|right; reflexivity].
  - vm_compute. split; discriminate.
Defined.

Lemma add_jobs_inserts_new_urls_once_witness :
  snd (add_jobs db_only_abc jobs_dup) = 2
  /\ snd (add_jobs (fst (add_jobs db_only_abc jobs_dup)) jobs_dup) = 0.
Proof.
  assert (Hk : key_consistent (map row_key (rows (conn db_only_abc)) ++ map job_key jobs_dup))
    by (apply StoreFacts.key_consistentb_spec; vm_compute; reflexivity).
  destruct (StoreFacts.add_jobs_inserts_new_urls_once db_only_abc jobs_dup Hk)
    as [_ [H1 [H2 _]]].
  split; [rewrite H1; vm_compute; reflexivity | exact H2].
Defined.

Lemma search_jobs_playwright_errors_witness :
  search_jobs accept_host hash_stub no_date no_date (page_with [good_card; broken_card])
    (s "ML Engineer") (s "Berlin") None None None 100 20000 = Ok [good_job].
Proof.
  refine (proj2 (proj2 (ScraperFacts.search_jobs_playwright_errors accept_host hash_stub
            no_date no_date (page_with [good_card; broken_card]) (s "ML Engineer")
            (s "Berlin") None None None 100 20000 _))
            false [good_card] broken_card [] [good_job] _ _ _ _ _);
    vm_compute; reflexivity.
Defined.

Lemma discovery_merge_first_per_url_witness :
  job_discovery_node 999 search_two [] queries_two None [] [] []
    = (rows_two, calls_two, Ok found_two)
  /\ List.length (filter (fun j => str_eqb (job_url j) url_b) found_two) = 1
  /\ List.length (filter (batch_has url_b) calls_two) <= 1.
Proof.
  assert (E : job_discovery_node 999 search_two [] queries_two None [] [] []
              = (rows_two, calls_two, Ok found_two)) by (vm_compute; reflexivity).
  assert (Hk : key_consistent (map row_key []
                 ++ map job_key (scraped search_two (node_location None) [] [] [] queries_two)))
    by (apply StoreFacts.key_consistentb_spec; vm_compute; reflexivity).
  destruct (MergeFacts.discovery_merge_first_per_url 999 search_two [] queries_two None [] [] []
              rows_two calls_two found_two Hk E) as [_ [_ [Hb Hu]]].
  split; [exact E|]. split; [|apply Hb].
  apply Hu; [|discriminate|intros []].
  apply (proj1 (PyStrFacts.str_in_iff _ _)). vm_compute. reflexivity.
Defined.

Lemma update_scores_present_pairs_witness :
  snd (update_scores db_only_abc [(s "abc123", 87%Z); (s "doesnotexist", 50%Z)]) = 1.
Proof.
  assert (Hpk : NoDup (map row_id (rows (conn db_only_abc))))
    by (constructor; [intros []|constructor]).
  rewrite (proj1 (StoreFacts.update_scores_present_pairs db_only_abc
                    [(s "abc123", 87%Z); (s "doesnotexist", 50%Z)] Hpk)).
  vm_compute. reflexivity.
Defined.

Lemma get_new_jobs_in_order_witness :
  (exists db', get_new_jobs 999 db_only_abc [url_a; url abc_row; url_a]
               = Ok (db', [url_a; url_a]) /\ rows (conn db') = rows (conn db_only_abc))
  /\ get_new_jobs 2 db_only_abc [url_a; url abc_row; url_a] = Raise OperationalError.
Proof.
  split.
  - apply (proj1 (StoreFacts.get_new_jobs_in_order 999 db_only_abc
                    [url_a; url abc_row; url_a])).
    apply Nat.leb_le. vm_compute. reflexivity.
  - apply (proj1 (proj2 (StoreFacts.get_new_jobs_in_order 2 db_only_abc
                           [url_a; url abc_row; url_a]))).
    apply Nat.ltb_lt. vm_compute. reflexivity.
Defined.

Lemma get_new_jobs_after_add_jobs_witness :
  (exists db', get_new_jobs 999 (fst (add_jobs db_only_abc jobs_dup)) (map job_url jobs_dup)
               = Ok (db', []))
  /\ get_new_jobs 2 (fst (add_jobs db_only_abc jobs_dup)) (map job_url jobs_dup)
     = Raise OperationalError.
Proof.
  assert (Hk : key_consistent (map row_key (rows (conn db_only_abc)) ++ map job_key jobs_dup))
    by (apply StoreFacts.key_consistentb_spec; vm_compute; reflexivity).
  split.
  - apply (proj1 (StoreFacts.get_new_jobs_after_add_jobs 999 db_only_abc jobs_dup Hk)).
    apply Nat.leb_le. vm_compute. reflexivity.
  - apply (proj2 (StoreFacts.get_new_jobs_after_add_jobs 2 db_only_abc jobs_dup Hk)).
    apply Nat.ltb_lt. vm_compute. reflexivity.
Defined.

End Witnesses.

Module StoreInvariants.
Import Url Schema Storage Props PyStrFacts StoreFacts.

Lemma insert_many_unique (rs news : list Row) :
  NoDup (map url rs) -> NoDup (map row_id rs) ->
  NoDup (map url (fst (insert_many rs news))) /\ NoDup (map row_id (fst (insert_many rs news))).
Proof.
  revert rs; induction news as [|r news IH]; intros rs Hu Hi; [split; assumption|].
  cbn [insert_many]. unfold insert_or_ignore.
  destruct (existsb _ rs) eqn:E.
  - destruct (insert_many rs news) as [rs2 n2] eqn:E2. cbn.
    pose proof (IH rs Hu Hi) as H. rewrite E2 in H. exact H.
  - assert (Hn : forall r', In r' rs -> row_id r' <> row_id r /\ url r' <> url r).
    { intros r' Hr'. apply Bool.not_true_iff_false in E.
      split; intros Heq; apply E; apply existsb_exists; exists r'; split; auto;
        rewrite Heq, str_eqb_refl; [reflexivity|apply orb_true_r]. }
    assert (Hu' : NoDup (map url (rs ++ [r]))).
    { rewrite map_app. apply NoDup_app; [exact Hu|repeat constructor; intros []|].
      intros x Hx1 [Hx2|[]]. apply in_map_iff in Hx1 as [r' [<- Hr']].
      apply (proj2 (Hn r' Hr')). exact (eq_sym Hx2). }
    assert (Hi' : NoDup (map row_id (rs ++ [r]))).
    { rewrite map_app. apply NoDup_app; [exact Hi|repeat constructor; intros []|].
      intros x Hx1 [Hx2|[]]. apply in_map_iff in Hx1 as [r' [<- Hr']].
      apply (proj1 (Hn r' Hr')). exact (eq_sym Hx2). }
    pose proof (IH (rs ++ [r]) Hu' Hi') as H.
    destruct (insert_many (rs ++ [r]) news) as [rs2 n2]. exact H.
Qed.

(** [add_jobs] keeps the table's constraints: URLs and ids stay unique. *)
Theorem add_jobs_keeps_unique (db : JobDatabase) (jobs : list JobListing) :
  NoDup (map url (rows (conn db))) -> NoDup (map row_id (rows (conn db))) ->
  NoDup (map url (rows (conn (fst (add_jobs db jobs)))))
  /\ NoDup (map row_id (rows (conn (fst (add_jobs db jobs))))).
Proof.
  intros Hu Hi. destruct jobs as [|j js]; [split; assumption|].
  unfold add_jobs. cbv beta iota zeta.
  pose proof (insert_many_unique (rows (conn db)) (map (to_row (db_remote db)) (j :: js)) Hu Hi)
    as H.
  destruct (insert_many _ _) as [rs' n]. exact H.
Qed.

Lemma insert_many_count (rs news : list Row) :
  exists ins, insert_many rs news = (rs ++ ins, List.length ins) /\ incl ins news.
Proof.
  revert rs; induction news as [|r news IH]; intros rs.
  - exists []. split; [rewrite app_nil_r; reflexivity | intros x []].
  - cbn [insert_many]. unfold insert_or_ignore.
    destruct (existsb _ rs).
    + destruct (IH rs) as [ins [H1 H2]]. rewrite H1.
      exists ins. split; [reflexivity|]. intros x Hx. right. apply H2, Hx.
    + destruct (IH (rs ++ [r])) as [ins [H1 H2]]. rewrite H1.
      exists (r :: ins). split; [rewrite <- app_assoc; reflexivity|].
      intros x [Hx|Hx]; [left; exact Hx | right; apply H2, Hx].
Qed.

(** [add_jobs] never changes or removes a row: it appends rows built from
    the given listings, and returns how many it appended. *)
Theorem add_jobs_returns_appended (db : JobDatabase) (jobs : list JobListing) :
  exists ins,
    rows (conn (fst (add_jobs db jobs))) = rows (conn db) ++ ins
    /\ snd (add_jobs db jobs) = List.length ins
    /\ incl ins (map (to_row (db_remote db)) jobs).
Proof.
  destruct jobs as [|j js].
  - exists []. cbn. rewrite app_nil_r. split; [reflexivity|]. split; [reflexivity|intros x []].
  - unfold add_jobs. cbv beta iota zeta.
    destruct (insert_many_count (rows (conn db)) (map (to_row (db_remote db)) (j :: js)))
      as [ins [H1 H2]].
    rewrite H1. cbn. exists ins. split; [reflexivity|]. split; [lia|exact H2].
Qed.

Lemma keep_first_url_urls (seen : list str) (rs : list Row) u :
  In u (map url (keep_first_url seen rs)) <-> In u (map url rs) /\ ~ In u seen.
Proof.
  revert seen; induction rs as [|r rs IH]; intros seen; cbn; [tauto|].
  destruct (str_in (url r) seen) eqn:E.
  - rewrite IH. apply str_in_iff in E. split; [tauto|].
    intros [[<-|H] Hn]; [contradiction|tauto].
  - cbn. rewrite IH. cbn. apply str_in_false in E. split.
    + intros [<-|[H Hn]]; [tauto|]. split; [tauto|]. intros H'. apply Hn. right. exact H'.
    + intros [[<-|H] Hn]; [left; reflexivity|].
      destruct (list_eq_dec ascii_dec (url r) u) as [->|Hne]; [left; reflexivity|].
      right. split; [exact H|]. intros [H'|H']; [exact (Hne H')|exact (Hn H')].
Qed.

Lemma keep_first_url_nodup (seen : list str) (rs : list Row) :
  NoDup (map url (keep_first_url seen rs)).
Proof.
  revert seen; induction rs as [|r rs IH]; intros seen; cbn; [constructor|].
  destruct (str_in (url r) seen); [apply IH|].
  cbn. constructor; [|apply IH].
  rewrite keep_first_url_urls. intros [_ H]. apply H. left. reflexivity.
Qed.

Lemma keep_first_url_nodup_id (seen : list str) (rs : list Row) :
  NoDup (map url rs) -> (forall u, In u (map url rs) -> ~ In u seen) ->
  keep_first_url seen rs = rs.
Proof.
  revert seen; induction rs as [|r rs IH]; intros seen Hnd Hs; [reflexivity|].
  inversion Hnd as [|x l Hx Hnd']; subst. cbn.
  rewrite (proj2 (str_in_false _ _) (Hs (url r) (or_introl eq_refl))).
  f_equal. apply IH; [exact Hnd'|].
  intros u Hu [<-|H]; [exact (Hx Hu)|]. exact (Hs u (or_intror Hu) H).
Qed.

(** The rows [keep_first_url seen] keeps for a URL [u]: none when [u] is
    in [seen], the first row of [u] otherwise. *)
Lemma keep_first_url_filter (seen : list str) (rs : list Row) (u : str) :
  filter (fun r => str_eqb (url r) u) (keep_first_url seen rs)
  = if str_in u seen then [] else firstn 1 (filter (fun r => str_eqb (url r) u) rs).
Proof.
  revert seen; induction rs as [|r rs IH]; intros seen.
  - cbn. destruct (str_in u seen); reflexivity.
  - cbn [keep_first_url filter].
    destruct (str_in (url r) seen) eqn:E.
    + rewrite IH. destruct (str_eqb (url r) u) eqn:Eu; [|reflexivity].
      apply str_eqb_eq in Eu. subst u. rewrite E. reflexivity.
    + cbn [filter]. destruct (str_eqb (url r) u) eqn:Eu.
      * apply str_eqb_eq in Eu. subst u. rewrite E. cbn [firstn]. f_equal.
        rewrite IH. cbn [str_in]. rewrite str_eqb_refl. reflexivity.
      * rewrite IH. cbn [str_in]. rewrite (str_eqb_sym u), Eu. reflexivity.
Qed.

(** Opening the database removes every row whose URL an earlier row
    already has: afterwards URLs are unique, the row kept for each URL is
    the first row of the file with that URL (the smallest [rowid]), every
    URL of the file is still present, no row is invented, and opening it
    again deletes nothing. *)
Theorem JobDatabase_init_dedups (remote : str) (stored : list Row) :
  let rs := rows (conn (JobDatabase_init remote stored)) in
  NoDup (map url rs)
  /\ (forall u, filter (fun r => str_eqb (url r) u) rs
                = firstn 1 (filter (fun r => str_eqb (url r) u) stored))
  /\ (forall u, In u (map url rs) <-> In u (map url stored))
  /\ incl rs stored
  /\ rows (conn (JobDatabase_init remote rs)) = rs.
Proof.
  cbn zeta. change (rows (conn (JobDatabase_init remote stored)))
    with (keep_first_url [] stored).
  change (rows (conn (JobDatabase_init remote (keep_first_url [] stored))))
    with (keep_first_url [] (keep_first_url [] stored)).
  split; [apply keep_first_url_nodup|].
  split; [intros u; apply keep_first_url_filter|]. split.
  - intros u. rewrite keep_first_url_urls. cbn. tauto.
  - split; [apply MergeFacts.keep_first_url_incl|].
    apply keep_first_url_nodup_id; [apply keep_first_url_nodup|intros u _ []].
Qed.

(** The rows after a sequence of [UPDATE]s, whether or not ids repeat. *)
Lemma update_many_rows (rs : list Row) (ps : list (str * Z)) :
  fst (update_many rs (map (fun '(job_id, score) => (score, job_id)) ps))
  = map (fun r => match last_score (row_id r) ps with
                  | Some sc => with_score sc r
                  | None => r
                  end) rs.
Proof.
  revert rs; induction ps as [|[k sc] ps IH]; intros rs.
  - cbn. induction rs as [|r rs IHrs]; [reflexivity|]. cbn. f_equal. exact IHrs.
  - cbn [map update_many].
    destruct (update_one rs (sc, k)) as [rs1 n1] eqn:E1.
    pose proof (IH rs1) as H.
    destruct (update_many rs1 _) as [rs2 n2]. cbn [fst] in *. rewrite H.
    cbn in E1. injection E1 as <- _.
    rewrite map_map. apply map_ext. intros r.
    cbn [last_score]. rewrite (str_eqb_sym k).
    destruct (str_eqb (row_id r) k); cbn [row_id];
      destruct (last_score (row_id r) ps); reflexivity.
Qed.

Lemma update_many_count (rs : list Row) (ps : list (str * Z)) :
  snd (update_many rs (map (fun '(job_id, score) => (score, job_id)) ps))
  = list_sum (map (fun p => List.length (filter (fun r => str_eqb (row_id r) (fst p)) rs)) ps).
Proof.
  revert rs; induction ps as [|[k sc] ps IH]; intros rs; [reflexivity|].
  cbn [map update_many].
  destruct (update_one rs (sc, k)) as [rs1 n1] eqn:E1.
  assert (Hids : map row_id rs1 = map row_id rs).
  { rewrite <- (update_one_ids rs (sc, k)), E1. reflexivity. }
  pose proof (IH rs1) as H.
  destruct (update_many rs1 _) as [rs2 n2]. cbn [snd] in *. rewrite H.
  cbn in E1. injection E1 as _ <-.
  assert (G : forall k' (l1 l2 : list Row), map row_id l1 = map row_id l2 ->
            List.length (filter (fun r => str_eqb (row_id r) k') l1)
            = List.length (filter (fun r => str_eqb (row_id r) k') l2)).
  { intros k'.
  { induction l1 as [|a l1 IHl]; intros [|b l2] Hm; try discriminate; [reflexivity|].
    injection Hm as Hab Hm. cbn. rewrite Hab.
    destruct (str_eqb (row_id b) k'); cbn; rewrite (IHl l2 Hm); reflexivity. } }
  assert (Hm : map (fun p => List.length (filter (fun r => str_eqb (row_id r) (fst p)) rs1)) ps
              = map (fun p => List.length (filter (fun r => str_eqb (row_id r) (fst p)) rs)) ps).
  { apply map_ext. intros [k' sc']. apply G, Hids. }
  rewrite Hm. reflexivity.
Qed.

(** [update_scores] on any table (ids need not be unique): it neither adds,
    removes nor reorders rows; a row whose id some pair names ends with
    status 'scored' and the score of the last such pair, every other row
    is unchanged; it returns, summed over the pairs, the number of rows
    each pair's id matches. *)
Theorem update_scores_any_table (db : JobDatabase) (scores : list (str * Z)) :
  rows (conn (fst (update_scores db scores)))
  = map (fun r => match last_score (row_id r) scores with
                  | Some sc => with_score sc r
                  | None => r
                  end) (rows (conn db))
  /\ snd (update_scores db scores)
     = list_sum (map (fun p => List.length (filter (fun r => str_eqb (row_id r) (fst p))
                                                   (rows (conn db)))) scores).
Proof.
  destruct scores as [|p ps].
  - split; [|reflexivity]. cbn. symmetry. apply map_id.
  - unfold update_scores. cbv beta iota zeta.
    pose proof (update_many_rows (rows (conn db)) (p :: ps)) as H1.
    pose proof (update_many_count (rows (conn db)) (p :: ps)) as H2.
    destruct (update_many _ _) as [rs' n]. cbn [fst snd] in *.
    cbn [fst snd conn rows commit exec total_changes]. split; [exact H1|]. rewrite <- H2. lia.
Qed.

End StoreInvariants.

Module EncodeFacts.
Import Url Scraper PyStrFacts.

Lemma every_ascii (b : ascii -> bool) :
  forallb b (map ascii_of_nat (seq 0 256)) = true -> forall c, b c = true.
Proof.
  intros H c. rewrite forallb_forall in H. apply H.
  apply in_map_iff. exists (nat_of_ascii c). split; [apply ascii_nat_embedding|].
  apply in_seq. pose proof (nat_ascii_bounded c). lia.
Qed.

Lemma in_all_ascii c : In c (map ascii_of_nat (seq 0 256)).
Proof.
  apply in_map_iff. exists (nat_of_ascii c). split; [apply ascii_nat_embedding|].
  apply in_seq. pose proof (nat_ascii_bounded c). lia.
Qed.

Lemma quote_char_inj c d : quote_char c = quote_char d -> c = d.
Proof.
  pose proof (every_ascii (fun c => forallb (fun d =>
    negb (str_eqb (quote_char c) (quote_char d)) || ascii_eqb c d)
    (map ascii_of_nat (seq 0 256)))) as H.
  specialize (H ltac:(vm_compute; reflexivity) c). cbv beta in H.
  rewrite forallb_forall in H. specialize (H d (in_all_ascii d)).
  intros Hq. rewrite Hq, str_eqb_refl in H. cbn in H.
  apply ascii_eqb_eq, H.
Qed.

Lemma quote_char_shape c :
  (exists x, quote_char c = [x] /\ x <> "%"%char) \/
  (exists x1 x2, quote_char c = ["%"%char; x1; x2]).
Proof.
  pose proof (every_ascii (fun c => match quote_char c with
    | [x] => negb (ascii_eqb x "%"%char)
    | [x; _; _] => ascii_eqb x "%"%char
    | _ => false end) ltac:(vm_compute; reflexivity) c) as H.
  cbv beta in H.
  destruct (quote_char c) as [|x [|x1 [|x2 [|]]]]; try discriminate.
  - left. exists x. split; [reflexivity|]. intros ->. discriminate.
  - right. apply ascii_eqb_eq in H. subst. eauto.
Qed.

Lemma quote_char_app_inj c d r1 r2 :
  quote_char c ++ r1 = quote_char d ++ r2 -> c = d /\ r1 = r2.
Proof.
  destruct (quote_char_shape c) as [[x [Ec Nx]]|[x1 [x2 Ec]]];
  destruct (quote_char_shape d) as [[y [Ed Ny]]|[y1 [y2 Ed]]];
  rewrite Ec, Ed; cbn [app]; intros H; inversion H; subst.
  - split; [apply quote_char_inj; congruence|reflexivity].
  - contradiction.
  - contradiction.
  - split; [apply quote_char_inj; congruence|reflexivity].
Qed.

Lemma quote_char_nonempty c : quote_char c <> [].
Proof.
  destruct (quote_char_shape c) as [[x [E _]]|[x1 [x2 E]]]; rewrite E; discriminate.
Qed.

(** Characters [quote_plus] can emit. *)
Lemma quote_char_alphabet c x :
  In x (quote_char c) ->
  is_alpha x || is_digit x || mem x (s "_.-~+%") = true.
Proof.
  pose proof (every_ascii (fun c => forallb (fun x =>
    is_alpha x || is_digit x || mem x (s "_.-~+%")) (quote_char c))
    ltac:(vm_compute; reflexivity) c) as H.
  cbv beta in H. rewrite forallb_forall in H. apply H.
Qed.

(** [quote_plus] is injective, and what it emits is letters, digits and
    [_.-~+%] only: never a [&] or a [=] that would split a query string. *)
Theorem quote_plus_injective_safe (x y : str) :
  (quote_plus x = quote_plus y -> x = y)
  /\ (forall c, In c (quote_plus x) ->
        is_alpha c || is_digit c || mem c (s "_.-~+%") = true)
  /\ ~ In "&"%char (quote_plus x) /\ ~ In "="%char (quote_plus x).
Proof.
  assert (Hal : forall c, In c (quote_plus x) ->
                is_alpha c || is_digit c || mem c (s "_.-~+%") = true).
  { intros c Hc. unfold quote_plus in Hc. apply in_flat_map in Hc.
    destruct Hc as [a [_ Ha]]. exact (quote_char_alphabet a c Ha). }
  split; [|split; [exact Hal|split]].
  - clear Hal. revert y. induction x as [|c x IH]; intros [|d y]; unfold quote_plus;
      cbn [flat_map]; intros H.
    + reflexivity.
    + exfalso. destruct (quote_char d) eqn:E; [exact (quote_char_nonempty d E)|discriminate].
    + exfalso. destruct (quote_char c) eqn:E; [exact (quote_char_nonempty c E)|discriminate].
    + apply quote_char_app_inj in H. destruct H as [-> H]. f_equal. apply IH, H.
  - intros H. specialize (Hal _ H). vm_compute in Hal. discriminate.
  - intros H. specialize (Hal _ H). vm_compute in Hal. discriminate.
Qed.

Lemma join_cons sep x xs :
  join sep (x :: xs) = x ++ match xs with [] => [] | _ => sep ++ join sep xs end.
Proof. destruct xs; [rewrite app_nil_r|]; reflexivity. Qed.

Lemma split_at_fresh (c : ascii) a b x y :
  ~ In c a -> ~ In c b -> a ++ c :: x = b ++ c :: y -> a = b /\ x = y.
Proof.
  revert b. induction a as [|u a IH]; intros [|v b] Ha Hb H; cbn [app] in H.
  - inversion H. auto.
  - inversion H; subst. exfalso. apply Hb. left. reflexivity.
  - inversion H; subst. exfalso. apply Ha. left. reflexivity.
  - inversion H; subst.
    destruct (IH b) as [-> ->]; [intros I; apply Ha; right; exact I
      |intros I; apply Hb; right; exact I|assumption|].
    auto.
Qed.

Lemma search_url_shape jt el rm : exists T, forall q l,
  search_url q l jt el rm =
  s "https://www.linkedin.com/jobs/search?keywords=" ++ quote_plus q
  ++ "&"%char :: s "location=" ++ quote_plus l ++ T.
Proof.
  eexists. intros q l. unfold search_url, search_params, urlencode.
  cbn [app map]. rewrite join_cons, join_cons.
  rewrite <- !app_assoc. cbn - [quote_plus join]. reflexivity.
Qed.

(** For fixed filters, the search URL determines the query and the location:
    two different (query, location) pairs never share a URL. *)
Theorem search_url_injective (q q' l l' : str) (jt el rm : option (list str)) :
  search_url q l jt el rm = search_url q' l' jt el rm -> q = q' /\ l = l'.
Proof.
  destruct (search_url_shape jt el rm) as [T HT]. rewrite !HT.
  intros H. apply app_inv_head in H.
  apply split_at_fresh in H;
    [|apply (quote_plus_injective_safe q q)|apply (quote_plus_injective_safe q' q')].
  destruct H as [Hq H]. apply app_inv_head in H. apply app_inv_tail in H.
  split; [apply (quote_plus_injective_safe q q') | apply (quote_plus_injective_safe l l')];
    assumption.
Qed.

Lemma every_ascii_eq (f g : ascii -> ascii) :
  forallb (fun c => ascii_eqb (f c) (g c)) (map ascii_of_nat (seq 0 256)) = true ->
  forall c, f c = g c.
Proof.
  intros H c. apply ascii_eqb_eq. exact (every_ascii _ H c).
Qed.

Lemma lower_char_idem c : lower_char (lower_char c) = lower_char c.
Proof. revert c. apply every_ascii_eq. vm_compute. reflexivity. Qed.

Lemma is_space_lower_char c : is_space (lower_char c) = is_space c.
Proof.
  pose proof (every_ascii (fun c => Bool.eqb (is_space (lower_char c)) (is_space c))
    ltac:(vm_compute; reflexivity) c) as H.
  apply Bool.eqb_prop, H.
Qed.

Lemma lstrip_map p f l :
  (forall c, p (f c) = p c) -> lstrip_by p (map f l) = map f (lstrip_by p l).
Proof.
  intros Hp. induction l as [|c l IH]; cbn [map lstrip_by]; [reflexivity|].
  rewrite Hp. destruct (p c); [exact IH|reflexivity].
Qed.

Lemma strip_lower x : strip (lower x) = lower (strip x).
Proof.
  unfold strip, lower.
  rewrite lstrip_map by apply is_space_lower_char.
  rewrite <- map_rev, lstrip_map by apply is_space_lower_char.
  rewrite map_rev. reflexivity.
Qed.

Lemma lower_idem x : lower (lower x) = lower x.
Proof.
  unfold lower. rewrite map_map. apply map_ext. apply lower_char_idem.
Qed.

Lemma lstrip_by_head p l :
  lstrip_by p l = [] \/ exists c r, lstrip_by p l = c :: r /\ p c = false.
Proof.
  induction l as [|c l IH]; cbn [lstrip_by]; [left; reflexivity|].
  destruct (p c) eqn:E; [exact IH|right; eauto].
Qed.

Lemma lstrip_by_idem p l : lstrip_by p (lstrip_by p l) = lstrip_by p l.
Proof.
  destruct (lstrip_by_head p l) as [E|[c [r [E Hc]]]]; rewrite E;
    cbn [lstrip_by]; [reflexivity|rewrite Hc; reflexivity].
Qed.

Lemma lstrip_rev_strip x :
  lstrip_by is_space (rev (strip x)) = rev (strip x).
Proof.
  unfold strip. rewrite rev_involutive. apply lstrip_by_idem.
Qed.

Lemma strip_idem x : strip (strip x) = strip x.
Proof.
  assert (Hl : lstrip_by is_space (strip x) = strip x).
  { unfold strip.
    destruct (lstrip_by_head is_space x) as [E|[h [y [E Hh]]]]; rewrite E;
      [reflexivity|].
    cbn [rev]. rewrite (UrlFacts.lstrip_app is_space (rev y) [h]) by (right; eauto).
    rewrite rev_app_distr. cbn [rev app lstrip_by]. rewrite Hh. reflexivity. }
  unfold strip at 1. rewrite Hl, lstrip_rev_strip. apply rev_involutive.
Qed.

Lemma normalize_tag_ok v :
  (match v, strip v with _ :: _, _ :: _ => true | _, _ => false end) = true ->
  let w := lower (strip v) in w <> [] /\ strip w = w /\ lower w = w.
Proof.
  intros Hp w. subst w.
  destruct v as [|a v]; [discriminate|]. destruct (strip (a :: v)) as [|b t] eqn:Es;
    [discriminate|].
  split; [discriminate|]. rewrite <- Es. split.
  - rewrite strip_lower, strip_idem. reflexivity.
  - apply lower_idem.
Qed.

Lemma normalize_clean_list ws :
  Forall (fun w => w <> [] /\ strip w = w /\ lower w = w) ws ->
  map (fun v => lower (strip v))
      (filter (fun v => match v, strip v with
                        | _ :: _, _ :: _ => true
                        | _, _ => false
                        end) ws) = ws.
Proof.
  induction 1 as [|w ws [Hne [Hs Hl]] _ IH]; [reflexivity|].
  cbn [filter]. destruct w as [|a w]; [contradiction|].
  rewrite Hs. cbn [map]. rewrite Hs, Hl, IH. reflexivity.
Qed.

(** [_normalize] yields non-empty, stripped, lower-case tags, and applying it
    again to its own output changes nothing. *)
Theorem normalize_idempotent (values : option (list str)) :
  Forall (fun w => w <> [] /\ strip w = w /\ lower w = w) (normalize values)
  /\ normalize (Some (normalize values)) = normalize values.
Proof.
  assert (HF : Forall (fun w => w <> [] /\ strip w = w /\ lower w = w) (normalize values)).
  { destruct values as [[|v vs]|]; try constructor.
    apply Forall_forall. intros w Hw. cbn [normalize] in Hw.
    apply in_map_iff in Hw. destruct Hw as [v' [<- Hv']].
    apply filter_In in Hv'. apply normalize_tag_ok, Hv'. }
  split; [exact HF|].
  destruct (normalize values) as [|w ws] eqn:E; [reflexivity|].
  apply normalize_clean_list, HF.
Qed.

End EncodeFacts.

Module DescriptionFacts.
Import Url Schema Scraper Descriptions PyStrFacts StoreFacts EncodeFacts.

Lemma dict_set_keys d k v :
  map fst (dict_set d k v)
  = if str_in k (map fst d) then map fst d else map fst d ++ [k].
Proof.
  induction d as [|[k' v'] d IH]; [reflexivity|].
  cbn [dict_set map fst str_in]. rewrite (str_eqb_sym k k').
  destruct (str_eqb k' k) eqn:E; cbn [orb map fst].
  - reflexivity.
  - rewrite IH. destruct (str_in k (map fst d)); reflexivity.
Qed.

Lemma dict_set_nodup d k v :
  NoDup (map fst d) -> NoDup (map fst (dict_set d k v)).
Proof.
  intros H. rewrite dict_set_keys. destruct (str_in k (map fst d)) eqn:E; [exact H|].
  apply NoDup_app; [exact H|repeat constructor; intros []|].
  intros x Hx [<-|[]]. apply (proj1 (str_in_false _ _) E). exact Hx.
Qed.

Lemma dict_set_in d k v k' v' :
  In (k', v') (dict_set d k v) -> In (k', v') d \/ (k' = k /\ v' = v).
Proof.
  induction d as [|[k0 v0] d IH]; cbn [dict_set].
  - intros [H|[]]. inversion H. auto.
  - destruct (str_eqb k0 k) eqn:E.
    + apply str_eqb_eq in E. subst. intros [H|H].
      * inversion H. auto.
      * left. right. exact H.
    + intros [H|H]; [left; left; exact H|].
      destruct (IH H) as [H'|H']; [left; right; exact H'|right; exact H'].
Qed.

Lemma find_description_clean page u sels cur r :
  (cur = None \/ cur = Some []) ->
  find_description page u sels cur = Ok r ->
  r = None \/ r = Some [] \/ exists t, r = Some t /\ t <> [] /\ strip t = t.
Proof.
  revert cur. induction sels as [|sel sels IH]; intros cur Hc; cbn [find_description].
  - intros H. inversion H; subst. destruct Hc; auto.
  - destruct (dp_query_selector page u sel) as [[el|]|[b| | | |]];
      try discriminate; try (apply IH; exact Hc).
    destruct (inner_text el) as [txt|[b| | | |]]; try discriminate; try (apply IH; exact Hc).
    destruct (strip txt) as [|c t] eqn:Es.
    + apply IH. right. reflexivity.
    + intros H. inversion H; subst. right. right. exists (c :: t).
      split; [reflexivity|]. split; [discriminate|]. rewrite <- Es. apply strip_idem.
Qed.

Lemma scrape_loop_ok page w jobs0 descr jobs d :
  incl jobs jobs0 ->
  NoDup (map fst descr) ->
  (forall k v, In (k, v) descr ->
    (exists j, In j jobs0 /\ id j = k /\ job_url j <> []) /\ v <> [] /\ strip v = v) ->
  scrape_loop page w descr jobs = Ok d ->
  NoDup (map fst d) /\
  (forall k v, In (k, v) d ->
    (exists j, In j jobs0 /\ id j = k /\ job_url j <> []) /\ v <> [] /\ strip v = v).
Proof.
  revert descr. induction jobs as [|job jobs IH]; intros descr Hinc Hn Hv;
    cbn [scrape_loop].
  - intros H. inversion H; subst. auto.
  - assert (Hinc' : incl jobs jobs0) by (intros x Hx; apply Hinc; right; exact Hx).
    destruct (job_url job) as [|c u] eqn:Eu; [apply IH; assumption|].
    destruct (dp_goto page (c :: u)) as [[]|[b| | | |]]; cbn [bind];
      try discriminate; [|apply IH; assumption].
    destruct (dp_wait_for_timeout page (c :: u) w) as [[]|[b| | | |]]; cbn [bind];
      try discriminate; [|apply IH; assumption].
    destruct (find_description page (c :: u) description_selectors None) as [dt|[b| | | |]]
      eqn:Ef; try discriminate; [|apply IH; assumption].
    destruct (dp_wait_for_timeout page (c :: u) 1500) as [[]|e]; cbn [bind];
      [|discriminate].
    apply IH; [exact Hinc'| |].
    + destruct dt as [[|x t]|]; [exact Hn| |exact Hn]. apply dict_set_nodup, Hn.
    + destruct (find_description_clean _ _ _ _ _ (or_introl eq_refl) Ef)
        as [->|[->|[t [-> [Ht Hs]]]]]; [exact Hv|exact Hv|].
      destruct t as [|x t]; [contradiction|].
      intros k v Hin. apply dict_set_in in Hin. destruct Hin as [Hin|[Hk Hv']].
      * apply Hv, Hin.
      * rewrite Hv'. split; [|split; [exact Ht|exact Hs]]. rewrite Hk.
        exists job. split; [apply Hinc; left; reflexivity|]. split; [reflexivity|].
        rewrite Eu. discriminate.
Qed.

(** The dict [scrape_job_descriptions] returns has one entry per key; each
    key is the id of an input job with a non-empty URL, and each value is a
    non-empty stripped text. *)
Theorem scrape_job_descriptions_ok (page : DetailPage) (jobs : list JobListing)
  (wait_ms : Z) (d : list (str * str)) :
  scrape_job_descriptions page jobs wait_ms = Ok d ->
  NoDup (map fst d) /\
  (forall k v, In (k, v) d ->
    (exists j, In j jobs /\ id j = k /\ job_url j <> []) /\ v <> [] /\ strip v = v).
Proof.
  unfold scrape_job_descriptions. destruct jobs as [|j js].
  - intros H. inversion H; subst. split; [constructor|intros k v []].
  - destruct (dp_launch page) as [[]|e]; cbn [bind]; [|discriminate].
    apply scrape_loop_ok; [intros x Hx; exact Hx|constructor|intros k v []].
Qed.

Lemma scrape_loop_app page w descr pre post :
  scrape_loop page w descr (pre ++ post)
  = let* d := scrape_loop page w descr pre in scrape_loop page w d post.
Proof.
  revert descr. induction pre as [|job pre IH]; intros descr; [reflexivity|].
  cbn [app scrape_loop].
  destruct (job_url job) as [|c u]; [apply IH|].
  destruct (let* _ := dp_goto page (c :: u) in
            let* _ := dp_wait_for_timeout page (c :: u) w in
            find_description page (c :: u) description_selectors None) as [dt|[b| | | |]];
    try reflexivity; [|apply IH].
  destruct (dp_wait_for_timeout page (c :: u) 1500) as [[]|e]; cbn [bind];
    [apply IH|reflexivity].
Qed.

(** Once the browser is up, a job without URL or whose navigation raises a
    [PlaywrightError] is skipped as if it were not in the list: no delay, and
    the other jobs are scraped the same. *)
Theorem scrape_skips_failed_page (page : DetailPage) (wait_ms : Z)
  (pre post : list JobListing) (j : JobListing) :
  dp_launch page = Ok tt ->
  (job_url j = [] \/ exists b, dp_goto page (job_url j) = Raise (PlaywrightError b)) ->
  scrape_job_descriptions page (pre ++ j :: post) wait_ms
  = scrape_job_descriptions page (pre ++ post) wait_ms.
Proof.
  intros Hl Hj.
  assert (Hstep : forall d, scrape_loop page wait_ms d (j :: post)
                            = scrape_loop page wait_ms d post).
  { intros d. cbn [scrape_loop].
    destruct Hj as [E|[b E]]; destruct (job_url j) as [|c u]; try reflexivity.
    - discriminate.
    - rewrite E. reflexivity. }
  unfold scrape_job_descriptions.
  assert (Hne : pre ++ j :: post <> []) by (destruct pre; discriminate).
  destruct (pre ++ j :: post) as [|x l] eqn:E1; [contradiction|].
  rewrite <- E1, Hl. cbn [bind]. rewrite scrape_loop_app.
  destruct (pre ++ post) as [|y l'] eqn:E2.
  - apply app_eq_nil in E2. destruct E2 as [-> ->]. cbn [app]. cbn [bind scrape_loop].
    apply Hstep.
  - rewrite <- E2. cbn [bind]. rewrite scrape_loop_app.
    destruct (scrape_loop page wait_ms [] pre); cbn [bind]; [apply Hstep|reflexivity].
Qed.

Lemma scrape_job_descriptions_launched page jobs w :
  dp_launch page = Ok tt -> scrape_job_descriptions page jobs w = scrape_loop page w [] jobs.
Proof.
  intros Hl. destruct jobs as [|j js]; [reflexivity|].
  unfold scrape_job_descriptions. rewrite Hl. reflexivity.
Qed.

(** The polite delay after a page that was read lies outside the [try]: at
    whatever position the job comes, once the jobs before it went through
    the loop, an exception the delay raises, even a [PlaywrightError], ends
    [scrape_job_descriptions] with that exception. *)
Theorem scrape_polite_delay_uncaught (page : DetailPage) (wait_ms : Z)
  (pre : list JobListing) (d : list (str * str))
  (j : JobListing) (rest : list JobListing) (dt : option str) (e : exn) :
  dp_launch page = Ok tt ->
  scrape_loop page wait_ms [] pre = Ok d ->
  job_url j <> [] ->
  dp_goto page (job_url j) = Ok tt ->
  dp_wait_for_timeout page (job_url j) wait_ms = Ok tt ->
  find_description page (job_url j) description_selectors None = Ok dt ->
  dp_wait_for_timeout page (job_url j) 1500 = Raise e ->
  scrape_job_descriptions page (pre ++ j :: rest) wait_ms = Raise e.
Proof.
  intros Hl Hp Hu Hg Hw Hf Hd.
  rewrite (scrape_job_descriptions_launched _ _ _ Hl), scrape_loop_app, Hp.
  cbn [bind scrape_loop].
  destruct (job_url j) as [|c u]; [contradiction|].
  rewrite Hg, Hw. cbn [bind]. rewrite Hf, Hd. reflexivity.
Qed.

End DescriptionFacts.

Module ScorerFacts.
Import Url Schema Storage Scraper Descriptions Scorer Props PyStrFacts StoreFacts
  EncodeFacts StoreInvariants.

Lemma range_step_concat (l : list JobListing) fuel i :
  List.length l - i <= 5 * fuel ->
  List.concat (map (fun k => firstn batch_size (skipn k l))
              (range_step fuel i (List.length l) batch_size)) = skipn i l.
Proof.
  revert i. induction fuel as [|f IH]; intros i Hf; cbn [range_step].
  - cbn. symmetry. apply skipn_all2. lia.
  - destruct (i <? List.length l) eqn:E.
    + apply Nat.ltb_lt in E. cbn [map List.concat]. rewrite IH by (unfold batch_size; lia).
      unfold batch_size. rewrite <- (Nat.add_comm 5 i), <- skipn_skipn.
      apply firstn_skipn.
    + apply Nat.ltb_ge in E. cbn. symmetry. apply skipn_all2. exact E.
Qed.

Lemma range_step_bound fuel i n k :
  In k (range_step fuel i n batch_size) -> i <= k < n.
Proof.
  revert i. induction fuel as [|f IH]; intros i; cbn [range_step]; [intros []|].
  destruct (i <? n) eqn:E; [|intros []].
  apply Nat.ltb_lt in E. intros [<-|H]; [lia|]. apply IH in H. unfold batch_size in H. lia.
Qed.

Lemma range_step_length fuel i n :
  n - i <= 5 * fuel ->
  List.length (range_step fuel i n batch_size) = (n - i + 4) / 5.
Proof.
  revert i. induction fuel as [|f IH]; intros i Hf; cbn [range_step].
  - cbn. assert (n - i = 0) as -> by lia. reflexivity.
  - destruct (i <? n) eqn:E.
    + apply Nat.ltb_lt in E. cbn [List.length]. rewrite IH by (unfold batch_size; lia).
      unfold batch_size.
      destruct (Nat.le_gt_cases (n - i) 5) as [Hs|Hs].
      * assert (n - (i + 5) = 0) as -> by lia.
        replace ((0 + 4) / 5) with 0 by reflexivity. apply Nat.div_unique with (r := n - i + 4 - 5); lia.
      * replace (n - i + 4) with ((n - (i + 5) + 4) + 1 * 5) by lia.
        rewrite Nat.div_add by lia. lia.
    + apply Nat.ltb_ge in E. cbn. assert (n - i = 0) as -> by lia. reflexivity.
Qed.

(** The batches of [relevance_scorer_node] cut [found_jobs] in order into
    pieces of 1 to 5 jobs, ceil(n/5) of them. *)
Theorem batches_partition (found_jobs : list JobListing) :
  List.concat (batches found_jobs) = found_jobs
  /\ (forall b, In b (batches found_jobs) -> 1 <= List.length b <= 5)
  /\ List.length (batches found_jobs) = (List.length found_jobs + 4) / 5.
Proof.
  unfold batches. split; [|split].
  - rewrite range_step_concat by lia. reflexivity.
  - intros b Hb. apply in_map_iff in Hb. destruct Hb as [k [<- Hk]].
    apply range_step_bound in Hk. rewrite length_firstn, length_skipn.
    unfold batch_size. lia.
  - rewrite length_map, range_step_length by lia. f_equal. lia.
Qed.

Lemma truncate_bounds (desc : str) :
  desc <> [] ->
  let r := if 3000 <? List.length desc then firstn 3000 desc ++ s "..." else desc in
  r <> [] /\ List.length r <= 3003.
Proof.
  intros Hd r. subst r. destruct (3000 <? List.length desc) eqn:E.
  - apply Nat.ltb_lt in E. rewrite length_app, length_firstn.
    change (List.length (s "...")) with 3.
    split; [|lia]. intros H. apply app_eq_nil in H. destruct H as [_ H]. discriminate.
  - apply Nat.ltb_ge in E. split; [exact Hd|lia].
Qed.

(** The description put in a prompt is never empty and has at most 3003
    characters; a scraped description of at most 3000 characters is used as
    it is, a longer one is cut to 3000 characters followed by [...]. *)
Theorem job_desc_bounds (descriptions : list (str * str)) (job : JobListing) :
  job_desc descriptions job <> []
  /\ List.length (job_desc descriptions job) <= 3003
  /\ (forall t, dict_get descriptions (id job) = Some t -> t <> [] ->
        List.length t <= 3000 -> job_desc descriptions job = t)
  /\ (forall t, dict_get descriptions (id job) = Some t -> 3000 < List.length t ->
        job_desc descriptions job = firstn 3000 t ++ s "...").
Proof.
  unfold job_desc. split; [|split; [|split]].
  - apply truncate_bounds.
    destruct (dict_get descriptions (id job)) as [[|c t]|]; [|discriminate|];
      destruct (description job) as [[|c' t']|]; discriminate.
  - apply truncate_bounds.
    destruct (dict_get descriptions (id job)) as [[|c t]|]; [|discriminate|];
      destruct (description job) as [[|c' t']|]; discriminate.
  - intros t Ht Hne Hl. rewrite Ht. destruct t as [|c t]; [contradiction|].
    apply Nat.ltb_ge in Hl. rewrite Hl. reflexivity.
  - intros t Ht Hl. rewrite Ht. destruct t as [|c t]; [cbn in Hl; lia|].
    apply Nat.ltb_lt in Hl. rewrite Hl. reflexivity.
Qed.

Lemma join_infix (sep x : str) (xs : list str) :
  In x xs -> exists pre post, join sep xs = pre ++ x ++ post.
Proof.
  induction xs as [|y ys IH]; intros H; [destruct H|].
  rewrite join_cons. destruct H as [<-|H].
  - exists [], (match ys with [] => [] | _ => sep ++ join sep ys end). reflexivity.
  - destruct (IH H) as [pre [post E]].
    destruct ys as [|z zs]; [destruct H|].
    rewrite E. exists (y ++ sep ++ pre), post. rewrite <- !app_assoc. reflexivity.
Qed.

Lemma infix_app_l (x a y : str) :
  (exists pre post, y = pre ++ x ++ post) -> exists pre post, a ++ y = pre ++ x ++ post.
Proof.
  intros [pre [post ->]]. exists (a ++ pre), post. rewrite <- app_assoc. reflexivity.
Qed.

Lemma infix_app_r (x y a : str) :
  (exists pre post, y = pre ++ x ++ post) -> exists pre post, y ++ a = pre ++ x ++ post.
Proof.
  intros [pre [post ->]]. exists pre, (post ++ a). rewrite <- !app_assoc. reflexivity.
Qed.

(** The prompt for a batch contains, for every job of the batch, the line
    [### Job ID: <id>]. *)
Theorem prompt_lists_batch_jobs (p : CandidateProfile) (descriptions : list (str * str))
  (batch : list JobListing) (j : JobListing) :
  In j batch ->
  exists pre post,
    relevance_prompt p (format_jobs_block descriptions batch)
    = pre ++ (s "### Job ID: " ++ id j ++ nl) ++ post.
Proof.
  intros Hj.
  assert (Hb : exists pre post, format_jobs_block descriptions batch
                               = pre ++ (s "### Job ID: " ++ id j ++ nl) ++ post).
  { unfold format_jobs_block.
    destruct (join_infix nl (format_job descriptions j) (map (format_job descriptions) batch))
      as [pre [post E]]; [apply in_map, Hj|].
    rewrite E. unfold format_job. exists pre.
    eexists. rewrite <- !app_assoc. reflexivity. }
  unfold relevance_prompt.
  repeat (first [apply (infix_app_r _ _ _ Hb) | apply infix_app_l]).
Qed.

Lemma score_batches_flat llm p descriptions bs acc :
  score_batches llm p descriptions bs acc
  = acc ++ flat_map (fun b => match llm_invoke llm (relevance_prompt p (format_jobs_block descriptions b)) with
                              | Ok scs => scs
                              | Raise _ => []
                              end) bs.
Proof.
  revert acc. induction bs as [|b bs IH]; intros acc; cbn [score_batches flat_map].
  - rewrite app_nil_r. reflexivity.
  - destruct (llm_invoke llm _); rewrite IH; [rewrite app_assoc|]; reflexivity.
Qed.

(** With jobs and a profile, [relevance_scorer_node] raises what the
    description scraper raises, and then what building the model client
    raises; otherwise it returns the scores of the batches whose model call
    succeeded, in batch order, and leaves the table deduplicated by URL with
    those scores written onto the rows of matching ids, the last score of an
    id winning. *)
Theorem relevance_scorer_node_result (page : DetailPage) (llm : LLM) (stored : list Row)
  (found_jobs : list JobListing) (p : CandidateProfile) (remote_filters : list str) :
  found_jobs <> [] ->
  relevance_scorer_node page llm stored found_jobs (Some p) remote_filters
  = match scrape_job_descriptions page found_jobs 10000, llm_init llm with
    | Raise e, _ => Raise e
    | Ok _, Raise e => Raise e
    | Ok d, Ok _ =>
        let scores :=
          flat_map (fun b => match llm_invoke llm (relevance_prompt p (format_jobs_block d b)) with
                             | Ok scs => scs
                             | Raise _ => []
                             end) (batches found_jobs) in
        Ok (map (fun r => match last_score (row_id r)
                                  (map (fun sc => (job_id sc, Scorer.relevance_score sc)) scores) with
                          | Some sc => with_score sc r
                          | None => r
                          end) (keep_first_url [] stored),
            scores)
    end.
Proof.
  intros Hne. destruct found_jobs as [|j js]; [contradiction|].
  unfold relevance_scorer_node.
  destruct (scrape_job_descriptions page (j :: js) 10000) as [d|e]; cbn [bind]; [|reflexivity].
  destruct (llm_init llm) as [[]|e]; cbn [bind]; [|reflexivity].
  rewrite score_batches_flat. cbn [app].
  match goal with
  | |- (let (_, _) := update_scores ?db ?sc in _) = _ =>
      pose proof (proj1 (update_scores_any_table db sc)) as Hu;
      destruct (update_scores db sc) as [db' n]
  end.
  cbn [fst] in Hu. rewrite Hu. reflexivity.
Qed.

End ScorerFacts.

Module SearchFacts.
Import Url Schema Scraper.

Section Cards.

Variable check_bracketed_host : str -> bool.
Variable md5_hexdigest : str -> str.
Variables date_fromisoformat datetime_fromisoformat_date : str -> option date.

Let parse := parse_card check_bracketed_host md5_hexdigest date_fromisoformat
               datetime_fromisoformat_date.

Lemma card_loop_prefix (limit : Z) (cards : list Card) :
  forall acc rs,
  card_loop check_bracketed_host md5_hexdigest date_fromisoformat
    datetime_fromisoformat_date limit acc cards = Ok rs ->
  (Z.of_nat (List.length acc) <= Z.max 0 limit)%Z ->
  (Z.of_nat (List.length rs) <= Z.max 0 limit)%Z
  /\ exists pre post ext, cards = pre ++ post /\ rs = acc ++ ext /\ map parse pre = map Ok ext.
Proof.
  induction cards as [|c cards IH]; intros acc rs H Hl; cbn [card_loop] in H.
  - inversion H; subst. split; [exact Hl|].
    exists [], [], []. split; [reflexivity|split; [symmetry; apply app_nil_r|reflexivity]].
  - destruct (limit <=? Z.of_nat (List.length acc))%Z eqn:E.
    + inversion H; subst. split; [exact Hl|].
      exists [], (c :: cards), []. split; [reflexivity|split; [symmetry; apply app_nil_r|reflexivity]].
    + apply Z.leb_gt in E. fold parse in H. destruct (parse c) as [job|[t| | | |]] eqn:Ec;
        try discriminate.
      * destruct (IH (acc ++ [job]) rs H) as [Hr [pre [post [ext [Hc [He Hm]]]]]].
        { rewrite length_app. cbn [List.length]. lia. }
        split; [exact Hr|]. exists (c :: pre), post, (job :: ext).
        split; [rewrite Hc; reflexivity|]. split; [rewrite He, <- app_assoc; reflexivity|].
        cbn [map]. rewrite Ec, Hm. reflexivity.
      * inversion H; subst. split; [exact Hl|].
        exists [], (c :: cards), []. split; [reflexivity|split; [symmetry; apply app_nil_r|reflexivity]].
Qed.

End Cards.

(** [search_jobs] returns at most [max 0 limit] listings, parsed in page
    order from a prefix of the cards it found. *)
Theorem search_jobs_bounded_prefix (chk : str -> bool) (md5 : str -> str)
  (d1 d2 : str -> option date) (page : Page) (query location : str)
  (jt el rm : option (list str)) (limit wait_ms : Z) (rs : list JobListing) :
  search_jobs chk md5 d1 d2 page query location jt el rm limit wait_ms = Ok rs ->
  (Z.of_nat (List.length rs) <= Z.max 0 limit)%Z
  /\ (rs = [] \/ exists pre post, find_cards page wait_ms = Ok (pre ++ post)
                                 /\ map (parse_card chk md5 d1 d2) pre = map Ok rs).
Proof.
  unfold search_jobs. destruct (browser_launch page) as [[]|e]; cbn [bind]; [|discriminate].
  destruct (goto page _) as [[]|[t| | | |]]; try discriminate;
    [|intros H; inversion H; subst; split; [cbn; lia|left; reflexivity]].
  destruct (find_cards page wait_ms) as [cards|[t| | | |]] eqn:Ef; try discriminate;
    [|intros H; inversion H; subst; split; [cbn; lia|left; reflexivity]].
  intros H. destruct (card_loop_prefix chk md5 d1 d2 limit cards [] rs H) as
    [Hr [pre [post [ext [Hc [He Hm]]]]]]; [cbn; lia|].
  split; [exact Hr|]. right. exists pre, post. rewrite <- Hc. split; [reflexivity|].
  cbn in He. subst ext. exact Hm.
Qed.
End SearchFacts.

Module ExtraWitnesses.
Import Url Schema Storage Scraper Descriptions Scorer Examples ExtraExamples Props.

Lemma add_jobs_keeps_unique_witness :
  NoDup (map url (rows (conn (fst (add_jobs db_only_abc jobs_dup)))))
  /\ NoDup (map row_id (rows (conn (fst (add_jobs db_only_abc jobs_dup))))).
Proof.
  apply (StoreInvariants.add_jobs_keeps_unique db_only_abc jobs_dup).
  - cbn. apply NoDup_cons; [intros []|apply NoDup_nil].
  - cbn. apply NoDup_cons; [intros []|apply NoDup_nil].
Defined.

Lemma search_url_injective_witness :
  s "ML Engineer" = s "ML Engineer" /\ s "Berlin" = s "Berlin".
Proof.
  apply (EncodeFacts.search_url_injective (s "ML Engineer") (s "ML Engineer")
           (s "Berlin") (s "Berlin") None None (Some [s "Remote"])).
  reflexivity.
Defined.

Lemma scrape_job_descriptions_ok_witness :
  NoDup (map fst [(url_a, s "Build ML pipelines.")])
  /\ (forall k v, In (k, v) [(url_a, s "Build ML pipelines.")] ->
        (exists j, In j jobs_ab /\ id j = k /\ job_url j <> []) /\ v <> [] /\ strip v = v).
Proof.
  apply (DescriptionFacts.scrape_job_descriptions_ok detail_page jobs_ab 10000).
  vm_compute. reflexivity.
Defined.

Lemma scrape_skips_failed_page_witness :
  scrape_job_descriptions detail_page
    ([listing url_a (s "ML Engineer")] ++ listing url_b (s "MLOps Engineer")
       :: [listing url_c (s "AI Engineer")]) 10000
  = scrape_job_descriptions detail_page
      ([listing url_a (s "ML Engineer")] ++ [listing url_c (s "AI Engineer")]) 10000.
Proof.
  apply DescriptionFacts.scrape_skips_failed_page; [reflexivity|].
  right. exists true. vm_compute. reflexivity.
Defined.

Lemma scrape_polite_delay_uncaught_witness :
  scrape_job_descriptions closing_page
    ([listing url_b (s "MLOps Engineer")] ++ [listing url_a (s "ML Engineer")]) 10000
  = Raise (PlaywrightError false).
Proof.
  apply (DescriptionFacts.scrape_polite_delay_uncaught closing_page 10000
           [listing url_b (s "MLOps Engineer")] [] (listing url_a (s "ML Engineer")) [] None);
    [reflexivity|vm_compute; reflexivity|discriminate|vm_compute; reflexivity|reflexivity
    |vm_compute; reflexivity|reflexivity].
Defined.

Lemma prompt_lists_batch_jobs_witness :
  exists pre post,
    relevance_prompt profile_ml (format_jobs_block [] jobs_ab)
    = pre ++ (s "### Job ID: " ++ url_b ++ nl) ++ post.
Proof.
  apply (ScorerFacts.prompt_lists_batch_jobs profile_ml [] jobs_ab
           (listing url_b (s "MLOps Engineer"))).
  right. left. reflexivity.
Defined.

Lemma relevance_scorer_node_result_witness :
  relevance_scorer_node detail_page llm_fixed
    [abc_row; to_row [] (listing url_a (s "ML Engineer"))] jobs_ab (Some profile_ml) []
  = Ok ([abc_row; with_score 80 (to_row [] (listing url_a (s "ML Engineer")))],
        [{| job_id := url_a; Scorer.relevance_score := 80%Z; reasoning := s "Good fit." |}])
  /\ relevance_scorer_node detail_page llm_no_client
       [abc_row; to_row [] (listing url_a (s "ML Engineer"))] jobs_ab (Some profile_ml) []
     = Raise ClientError.
Proof.
  split.
  - rewrite (ScorerFacts.relevance_scorer_node_result detail_page llm_fixed
               [abc_row; to_row [] (listing url_a (s "ML Engineer"))] jobs_ab
               profile_ml [] ltac:(discriminate)).
    vm_compute. reflexivity.
  - rewrite (ScorerFacts.relevance_scorer_node_result detail_page llm_no_client
               [abc_row; to_row [] (listing url_a (s "ML Engineer"))] jobs_ab
               profile_ml [] ltac:(discriminate)).
    vm_compute. reflexivity.
Defined.

Lemma search_jobs_bounded_prefix_witness :
  (Z.of_nat (List.length [good_job]) <= Z.max 0 100)%Z
  /\ ([good_job] = [] \/ exists pre post, find_cards (page_with [good_card]) 20000 = Ok (pre ++ post)
        /\ map (parse_card accept_host hash_stub no_date no_date) pre = map Ok [good_job]).
Proof.
  apply (SearchFacts.search_jobs_bounded_prefix accept_host hash_stub no_date no_date
           (page_with [good_card]) (s "ML Engineer") (s "Berlin") None None None 100 20000).
  vm_compute. reflexivity.
Defined.

End ExtraWitnesses.
